(** * pls: the column layout of the directory table ([pls/table.py])

    A shallow embedding of [column_spec_map], [column_in_details],
    [get_columns], [get_table] and the row loop of [write_output], followed
    by the properties of the column selector, of the table skeleton and of
    the rows built from them. *)

From stdpp Require Import gmap strings list.

Open Scope string_scope.
Open Scope list_scope.
Open Scope nat_scope.

(** ** Configuration read by the module *)

(** Modelled from the spec: the enum [pls.enums.icon_type.IconType] is
    imported by [table.py] but declared elsewhere; the spec only tells the
    mode "none" from the enabled ones, and [get_columns] only compares with
    [IconType.NONE]. *)
Variant IconType : Type :=
  | NONE
  | Glyphs (member : string).

Definition IconType_is_none (i : IconType) : bool :=
  match i with NONE => true | Glyphs _ => false end.

(** The values [table.py] reads from [pls.args.args], [sys.platform] and
    [pls.state.state].  [args.details] is [None] or a list of tokens. *)
Record Config : Type := mkConfig {
  details : option (list string);
  icon : IconType;
  no_align : bool;
  platform : string;
  is_git_managed : bool
}.

(** Python truthiness of [args.details]: [None] and the empty list are
    false. *)
Definition truthy (d : option (list string)) : bool :=
  match d with
  | None => false
  | Some [] => false
  | Some (_ :: _) => true
  end.

(** [args.details is not None] *)
Definition is_not_None (d : option (list string)) : bool :=
  match d with
  | None => false
  | Some _ => true
  end.

(** ** The column registry *)

(** The keyword arguments a column spec may carry in ["attrs"]. *)
Record Attrs : Type := mkAttrs {
  justify : option string;
  width : option Z
}.

(** The empty dict [{}]. *)
Definition no_attrs : Attrs := mkAttrs None None.

(** A [ColumnSpec] dict: both of its keys are optional, which is why
    [get_table] reads them with [dict.get] and a default. *)
Record ColumnSpec : Type := mkColumnSpec {
  cs_name : option string;
  cs_attrs : option Attrs
}.

Definition named (n : string) : ColumnSpec := mkColumnSpec (Some n) None.

Definition column_spec_items (no_align : bool) : list (string * ColumnSpec) :=
  [ ("spacer", named " ");
    ("inode", named "inode");
    ("links", mkColumnSpec (Some "Link#") (Some (mkAttrs (Some "right") None)));
    ("type", named "");
    ("perms", named "Permissions");
    ("user", named "User");
    ("group", named "Group");
    ("size", mkColumnSpec (Some "Size") (Some (mkAttrs (Some "right") None)));
    ("ctime", named "Created at");
    ("mtime", named "Modified at");
    ("atime", named "Accessed at");
    ("git", named "Git");
    ("icon", mkColumnSpec (Some "") (Some (mkAttrs None (Some 2%Z))));
    ("name", named (if no_align then "Name" else " Name")) ].

Definition column_spec_map (no_align : bool) : gmap string ColumnSpec :=
  list_to_map (column_spec_items no_align).

(** ** The column selector *)

(** [col_name in args.details or "+" in args.details] *)
Definition column_in_details (dets : list string) (col_name : string) : bool :=
  bool_decide (col_name ∈ dets) || bool_decide ("+" ∈ dets).

(** [list.insert(i, x)] for a non-negative index: past the end it appends. *)
Definition list_insert_at {A} (i : nat) (x : A) (l : list A) : list A :=
  take i l ++ x :: drop i l.

(** The candidate groups built under [if args.details:]. *)
Definition col_groups (cfg : Config) : list (list string) :=
  let groups :=
    [ ["inode"; "links"];
      ["type"; "perms"];
      ["size"];
      ["ctime"; "mtime"; "atime"] ] in
  let groups :=
    if bool_decide (platform cfg ≠ "win32")
    then list_insert_at 2 ["user"; "group"] groups
    else groups in
  if is_git_managed cfg then groups ++ [["git"]] else groups.

Definition name_group (cfg : Config) : list string :=
  let group := ["name"] in
  if IconType_is_none (icon cfg) then group else list_insert_at 0 "icon" group.

(** [selected_col_groups] as it stands when the flattening loop starts. *)
Definition selected_col_groups (cfg : Config) : list (list string) :=
  let selected :=
    match details cfg with
    | Some (tok :: toks) =>
        map (fun col_group =>
               List.filter (column_in_details (tok :: toks)) col_group)
            (col_groups cfg)
    | _ => []
    end in
  selected ++ [name_group cfg].

(** The flattening loop: [len] is [len(selected_col_groups)], [index] the
    counter of [enumerate], [flattened_cols] the accumulator. *)
Fixpoint flatten_loop (len index : nat) (groups : list (list string))
    (flattened_cols : list string) : list string :=
  match groups with
  | [] => flattened_cols
  | col_group :: rest =>
      if (length col_group =? 0)%nat then
        flatten_loop len (S index) rest flattened_cols
      else
        let col_group :=
          if negb (index =? len - 1)%nat
          then col_group ++ ["spacer"] else col_group in
        flatten_loop len (S index) rest (flattened_cols ++ col_group)
  end.

Definition get_columns (cfg : Config) : list string :=
  let groups := selected_col_groups cfg in
  flatten_loop (length groups) 0 groups [].

(** ** The table skeleton *)

(** What [rich.table.Table] keeps of a declared column: the header text and
    the keyword arguments passed with it. *)
Record Column : Type := mkColumn {
  header : string;
  col_attrs : Attrs
}.

Record Table : Type := mkTable {
  padding : Z * Z * Z * Z;
  box : option string;
  show_header : bool;
  header_style : string;
  columns : list Column;
  rows : list (list string)
}.

(** [Table(padding=(0, 1, 0, 0), box=None, show_header=..., header_style="underline")] *)
Definition new_table (show : bool) : Table :=
  mkTable (0, 1, 0, 0)%Z None show "underline" [] [].

(** [table.add_column(header, **attrs)] *)
Definition add_column (hd : string) (attrs : Attrs) (table : Table) : Table :=
  mkTable (padding table) (box table) (show_header table) (header_style table)
          (columns table ++ [mkColumn hd attrs]) (rows table).

(** [table.add_row], applied to the unpacked list of cells *)
Definition add_row (cells : list string) (table : Table) : Table :=
  mkTable (padding table) (box table) (show_header table) (header_style table)
          (columns table) (rows table ++ [cells]).

(** The body of the loop [for col_key in get_columns(): ...] of [get_table]. *)
Definition declare_column (registry : gmap string ColumnSpec)
    (table : Table) (col_key : string) : Table :=
  match registry !! col_key with
  | Some col =>
      add_column (default "" (cs_name col)) (default no_attrs (cs_attrs col)) table
  | None => table
  end.

(** The column loop of [get_table], for any registry and any list of keys. *)
Definition declare_columns (registry : gmap string ColumnSpec)
    (keys : list string) (table : Table) : Table :=
  foldl (declare_column registry) table keys.

Definition get_table (cfg : Config) : Table :=
  declare_columns (column_spec_map (no_align cfg)) (get_columns cfg)
                  (new_table (is_not_None (details cfg))).

(** ** The rows *)

(** A [Node] as far as [write_output] looks at it: [table_row] is [None] or
    a dict from column key to the rendered cell. *)
Record Node : Type := mkNode {
  table_row : option (gmap string string)
}.

(** [[data.get(col, "") for col in get_columns()]] for a list of keys. *)
Definition row_cells (keys : list string) (data : gmap string string)
    : list string :=
  map (fun col => default "" (data !! col)) keys.

Definition add_node_row (cfg : Config) (table : Table) (node : Node) : Table :=
  match table_row node with
  | Some data => add_row (row_cells (get_columns cfg) data) table
  | None => table
  end.

(** [write_output] up to [console.print]: the table handed to the console. *)
Definition write_output (cfg : Config) (all_nodes : list Node) : Table :=
  foldl (add_node_row cfg) (get_table cfg) all_nodes.

(** ** The selector over a store of Python objects

    [get_columns] builds its result by mutating list objects ([insert],
    [append], [extend]).  This second embedding keeps the objects in a store
    addressed by references, so that what the function writes, and where,
    can be stated. *)

(** A list element is a string or a reference to another list object. *)
Variant val : Type :=
  | VStr (s : string)
  | VRef (a : nat).

#[global] Instance val_eq_dec : EqDecision val.
Proof. solve_decision. Defined.

(** The module-level names [get_columns] can see.  [g_details] is the
    reference held by [args.details] when it is not [None]. *)
Record Globals : Type := mkGlobals {
  g_details : option nat;
  g_icon : IconType;
  g_platform : string;
  g_is_git_managed : bool;
  g_registry : gmap string ColumnSpec
}.

(** The store: the globals and every live list object, by address. *)
Record Store : Type := mkStore {
  globals : Globals;
  objects : list (list val)
}.

(** Computations that read and write the store and may raise. *)
Definition M (A : Type) : Type := Store -> option (A * Store).

Definition ret {A} (x : A) : M A := fun s => Some (x, s).

Definition bind {A B} (m : M A) (k : A -> M B) : M B :=
  fun s => match m s with
           | Some (x, s') => k x s'
           | None => None
           end.

Definition raise {A} : M A := fun _ => None.

Notation "'let!' x ':=' m 'in' k" := (bind m (fun x => k))
  (at level 10, x name, m at level 100, k at level 200, only parsing).
Notation "'run!' m 'in' k" := (bind m (fun _ => k))
  (at level 10, m at level 100, k at level 200, only parsing).

(** A list display or comprehension: a new object at the next address. *)
Definition alloc (o : list val) : M nat :=
  fun s => Some (length (objects s), mkStore (globals s) (objects s ++ [o])).

Definition load (a : nat) : M (list val) :=
  fun s => match objects s !! a with
           | Some o => Some (o, s)
           | None => None
           end.

Definition store_at (a : nat) (o : list val) : M unit :=
  fun s => match objects s !! a with
           | Some _ => Some (tt, mkStore (globals s) (<[a:=o]> (objects s)))
           | None => None
           end.

Definition read_globals : M Globals := fun s => Some (globals s, s).

Definition py_append (a : nat) (v : val) : M unit :=
  let! o := load a in store_at a (o ++ [v]).

Definition py_insert (a : nat) (i : nat) (v : val) : M unit :=
  let! o := load a in store_at a (list_insert_at i v o).

Definition py_extend (a : nat) (vs : list val) : M unit :=
  let! o := load a in store_at a (o ++ vs).

Definition py_len (a : nat) : M nat :=
  let! o := load a in ret (length o).

Definition strs (l : list string) : list val := VStr <$> l.

(** [column_in_details], reading the list object behind [args.details];
    with [args.details] equal to [None] the [in] raises. *)
Definition column_in_details_h (col_name : val) : M bool :=
  let! g := read_globals in
  match g_details g with
  | None => raise
  | Some d =>
      let! dets := load d in
      ret (bool_decide (col_name ∈ dets) || bool_decide (VStr "+" ∈ dets))
  end.

(** [[col for col in col_group if column_in_details(col)]] *)
Fixpoint comprehension (col_group : list val) : M (list val) :=
  match col_group with
  | [] => ret []
  | col :: rest =>
      let! keep := column_in_details_h col in
      let! filtered := comprehension rest in
      ret (if keep then col :: filtered else filtered)
  end.

(** [for col_group in col_groups: ...]; the list iterated over is not
    written to inside the loop, so the loop runs over its items. *)
Fixpoint filter_loop (selected_col_groups : nat) (col_groups : list val)
    : M unit :=
  match col_groups with
  | [] => ret tt
  | VRef col_group :: rest =>
      let! items := load col_group in
      let! filtered := comprehension items in
      let! filtered_group := alloc filtered in
      run! py_append selected_col_groups (VRef filtered_group) in
      filter_loop selected_col_groups rest
  | VStr _ :: _ => raise
  end.

(** [for index, col_group in enumerate(selected_col_groups): ...] *)
Fixpoint flatten_loop_h (selected_col_groups flattened_cols : nat)
    (index : nat) (groups : list val) : M unit :=
  match groups with
  | [] => ret tt
  | VRef col_group :: rest =>
      let! n := py_len col_group in
      if (n =? 0)%nat then
        flatten_loop_h selected_col_groups flattened_cols (S index) rest
      else
        let! len := py_len selected_col_groups in
        run! (if negb (index =? len - 1)%nat
              then py_append col_group (VStr "spacer") else ret tt) in
        let! items := load col_group in
        run! py_extend flattened_cols items in
        flatten_loop_h selected_col_groups flattened_cols (S index) rest
  | VStr _ :: _ => raise
  end.

(** [if args.details:] *)
Definition details_truthy : M bool :=
  let! g := read_globals in
  match g_details g with
  | None => ret false
  | Some d => let! n := py_len d in ret (negb (n =? 0)%nat)
  end.

(** The block guarded by [if args.details:]. *)
Definition select_details (selected_col_groups : nat) : M unit :=
  let! g := read_globals in
  let! g1 := alloc (strs ["inode"; "links"]) in
  let! g2 := alloc (strs ["type"; "perms"]) in
  let! g3 := alloc (strs ["size"]) in
  let! g4 := alloc (strs ["ctime"; "mtime"; "atime"]) in
  let! col_groups := alloc [VRef g1; VRef g2; VRef g3; VRef g4] in
  run! (if bool_decide (g_platform g ≠ "win32") then
          let! g5 := alloc (strs ["user"; "group"]) in
          py_insert col_groups 2 (VRef g5)
        else ret tt) in
  run! (if g_is_git_managed g then
          let! g6 := alloc (strs ["git"]) in
          py_append col_groups (VRef g6)
        else ret tt) in
  let! groups := load col_groups in
  filter_loop selected_col_groups groups.

(** The block from [name_group = ["name"]] to the [append] of the name
    group. *)
Definition add_name_group (selected_col_groups : nat) : M unit :=
  let! g := read_globals in
  let! name_group := alloc (strs ["name"]) in
  run! (if IconType_is_none (g_icon g) then ret tt
        else py_insert name_group 0 (VStr "icon")) in
  py_append selected_col_groups (VRef name_group).

(** The block from [flattened_cols = []] to the [return]. *)
Definition flatten_groups (selected_col_groups : nat) : M nat :=
  let! flattened_cols := alloc [] in
  let! groups := load selected_col_groups in
  run! flatten_loop_h selected_col_groups flattened_cols 0 groups in
  ret flattened_cols.

Definition get_columns_h : M nat :=
  let! selected_col_groups := alloc [] in
  let! enabled := details_truthy in
  run! (if enabled then select_details selected_col_groups else ret tt) in
  run! add_name_group selected_col_groups in
  flatten_groups selected_col_groups.

(** The configuration a store holds, [ds] being the tokens of the object
    behind [args.details]. *)
Definition config_of (g : Globals) (ds : option (list string))
    (align : bool) : Config :=
  mkConfig ds (g_icon g) align (g_platform g) (g_is_git_managed g).

(** [args.details] is [None], or refers to a list of strings in the store. *)
Definition details_at (s : Store) (ds : option (list string)) : Prop :=
  match g_details (globals s), ds with
  | None, None => True
  | Some d, Some toks => objects s !! d = Some (strs toks)
  | _, _ => False
  end.

(** ** Notions used to state the properties *)

(** The keys of the detail groups, in the order of [col_groups]. *)
Definition detail_keys : list string :=
  ["inode"; "links"; "type"; "perms"; "user"; "group"; "size";
   "ctime"; "mtime"; "atime"; "git"].

(** The groups that the flattening loop does not skip. *)
Definition retained_groups (cfg : Config) : list (list string) :=
  List.filter (fun g => negb (length g =? 0)%nat) (selected_col_groups cfg).

(** Groups laid out with one spacer between each two neighbours. *)
Fixpoint join_spacer (groups : list (list string)) : list string :=
  match groups with
  | [] => []
  | g :: rest =>
      match rest with
      | [] => g
      | _ :: _ => g ++ "spacer" :: join_spacer rest
      end
  end.

(** A retained group: it has a key and none of its keys is the spacer. *)
Definition proper_group (g : list string) : Prop :=
  g ≠ [] ∧ "spacer" ∉ g.

(** Between two stores: no object is lost and every object below address
    [n0] is left as it was. *)
Definition extends (n0 : nat) (objs objs' : list (list val)) : Prop :=
  (length objs ≤ length objs')%nat ∧
  ∀ a : nat, (a < n0)%nat → objs' !! a = objs !! a.

(** The list object at [sel] refers, in order, to distinct list objects
    at or above [n0] that hold the given groups. *)
Definition holds_groups (n0 : nat) (objs : list (list val)) (sel : nat)
    (groups : list (list string)) : Prop :=
  ∃ addrs : list nat,
    objs !! sel = Some (VRef <$> addrs) ∧
    Forall2 (fun a grp => objs !! a = Some (strs grp)) addrs groups ∧
    NoDup addrs ∧ (sel ∉ addrs) ∧ Forall (fun a => (n0 ≤ a)%nat) addrs.

(** A store with an unrelated list at address 0 and the detail tokens at
    address 1, in a version-controlled directory on linux. *)
Definition demo_store : Store :=
  mkStore (mkGlobals (Some 1) NONE "linux" true (column_spec_map false))
          [strs ["unrelated"]; strs ["size"; "git"; "type"]].

(** The selection of scenario C, on any platform and alignment. *)
Definition scenario_C (align : bool) (plat : string) : Config :=
  mkConfig (Some ["size"; "perms"]) NONE align plat false.

(** The column a registry entry declares. *)
Definition column_of (col : ColumnSpec) : Column :=
  mkColumn (default "" (cs_name col)) (default no_attrs (cs_attrs col)).

(** The keys in the order in which the selector lays them out. *)
Definition canonical_order : list string := detail_keys ++ ["icon"; "name"].

(** The detail keys whose group is a candidate under every platform and
    version-control status. *)
Definition plain_detail_keys : list string :=
  ["inode"; "links"; "type"; "perms"; "size"; "ctime"; "mtime"; "atime"].

(** A key sequence with the spacers taken out. *)
Definition without_spacers (cols : list string) : list string :=
  List.filter (fun key => negb (String.eqb key "spacer")) cols.

(** The number of spacers in a key sequence. *)
Definition count_spacers (cols : list string) : nat :=
  length (List.filter (fun key => String.eqb key "spacer") cols).

(** The configuration with [args.details] set to a list of tokens. *)
Definition with_details (cfg : Config) (dets : list string) : Config :=
  mkConfig (Some dets) (icon cfg) (no_align cfg) (platform cfg)
           (is_git_managed cfg).

(** The filtered detail groups: [selected_col_groups] before the name
    group is appended. *)
Definition detail_groups (cfg : Config) : list (list string) :=
  match details cfg with
  | Some (tok :: toks) =>
      map (fun col_group =>
             List.filter (column_in_details (tok :: toks)) col_group)
          (col_groups cfg)
  | _ => []
  end.

(** Two selections that agree on the wildcard and on the detail keys. *)
Definition same_tokens (dets dets' : list string) : Prop :=
  ∀ key, key ∈ "+" :: detail_keys → key ∈ dets ↔ key ∈ dets'.

(** A configuration under which every registered key is selected. *)
Definition full_config : Config :=
  mkConfig (Some ["+"]) (Glyphs "nerd") false "linux" true.

(** ** Sample runs *)

Example get_columns_scenario_A :
  get_columns (mkConfig None (Glyphs "nerd") false "linux" false)
  = ["icon"; "name"].
Proof. reflexivity. Qed.

Example get_columns_all_git :
  get_columns (mkConfig (Some ["+"]) NONE false "win32" true)
  = ["inode"; "links"; "spacer"; "type"; "perms"; "spacer"; "size"; "spacer";
     "ctime"; "mtime"; "atime"; "spacer"; "git"; "spacer"; "name"].
Proof. vm_compute. reflexivity. Qed.

Example get_columns_h_demo :
  (fun '(r, s') => objects s' !! r) <$> get_columns_h demo_store
  = Some (Some (strs ["type"; "spacer"; "size"; "spacer"; "git"; "spacer";
                      "name"])).
Proof. vm_compute. reflexivity. Qed.

Example get_columns_h_demo_frame :
  (fun '(r, s') => (r, take 2 (objects s'), length (objects s')))
    <$> get_columns_h demo_store
  = Some (17, objects demo_store, 18).
Proof. vm_compute. reflexivity. Qed.

Example get_columns_unknown_token :
  get_columns (mkConfig (Some ["all"]) NONE false "linux" true) = ["name"].
Proof. vm_compute. reflexivity. Qed.

(** ** The flattening loop lays the retained groups out with spacers *)

Lemma flatten_loop_acc len index groups acc :
  flatten_loop len index groups acc = acc ++ flatten_loop len index groups [].
Proof.
  revert index acc. induction groups as [|g rest IH]; intros index acc; simpl.
  - by rewrite app_nil_r.
  - destruct (length g =? 0)%nat; [apply IH|].
    set (grp := if negb (index =? len - 1)%nat then g ++ ["spacer"] else g).
    rewrite (IH _ (acc ++ grp)), (IH _ grp). by rewrite app_assoc.
Qed.

Lemma join_spacer_cons g g' rest :
  join_spacer (g :: g' :: rest) = g ++ "spacer" :: join_spacer (g' :: rest).
Proof. reflexivity. Qed.

Lemma flatten_loop_join groups final len index :
  final ≠ [] →
  len = (index + length groups + 1)%nat →
  flatten_loop len index (groups ++ [final]) []
  = join_spacer (List.filter (fun g => negb (length g =? 0)%nat)
                             (groups ++ [final])).
Proof.
  intros Hfinal. revert index.
  induction groups as [|g rest IH]; intros index Hlen.
  - simpl in *. destruct final as [|k final]; [done|]. simpl.
    replace (index =? len - 1)%nat with true; [done|].
    symmetry. apply Nat.eqb_eq. lia.
  - cbn [app flatten_loop List.filter].
    destruct g as [|k g]; simpl length; cbn [Nat.eqb negb].
    + apply IH. simpl in Hlen. lia.
    + replace (index =? len - 1)%nat with false
        by (symmetry; apply Nat.eqb_neq; simpl in Hlen; lia).
      cbn [negb app]. rewrite flatten_loop_acc.
      rewrite IH by (simpl in Hlen; lia).
      assert (Hne : ∃ g' tl,
                 List.filter (fun g => negb (length g =? 0)%nat) (rest ++ [final])
                 = g' :: tl).
      { clear -Hfinal. induction rest as [|r rest IHr]; simpl.
        - destruct final; [done|]. simpl. eauto.
        - destruct (negb (length r =? 0)%nat); eauto. }
      destruct Hne as (g' & tl & ->).
      rewrite join_spacer_cons. simpl. by rewrite <- app_assoc.
Qed.

Lemma name_group_nonempty cfg : name_group cfg ≠ [].
Proof. unfold name_group. by destruct (IconType_is_none (icon cfg)). Qed.

Lemma get_columns_join cfg :
  get_columns cfg = join_spacer (retained_groups cfg).
Proof.
  unfold get_columns, retained_groups, selected_col_groups.
  set (sel := match details cfg with Some (_ :: _) => _ | _ => [] end).
  apply flatten_loop_join; [apply name_group_nonempty|].
  rewrite length_app. simpl. lia.
Qed.

(** ** What the groups contain *)

(** Case analysis on membership in a list given by its elements. *)
Ltac elems H :=
  repeat (let E := fresh "E" in
          apply elem_of_cons in H as [E|H];
          [first [discriminate E | subst] |]);
  try (by apply elem_of_nil in H).

(** Membership of a literal in a list given by its elements. *)
Ltac has_elem :=
  repeat first [apply list_elem_of_here | apply list_elem_of_further].

Lemma col_groups_keys cfg g x :
  g ∈ col_groups cfg → x ∈ g → x ∈ detail_keys.
Proof.
  unfold col_groups, detail_keys, list_insert_at.
  destruct (bool_decide (platform cfg ≠ "win32")), (is_git_managed cfg);
    simpl; intros Hg Hx; elems Hg; elems Hx; has_elem.
Qed.

Lemma col_groups_git cfg :
  (∃ g, g ∈ col_groups cfg ∧ "git" ∈ g) ↔ is_git_managed cfg = true.
Proof.
  unfold col_groups, list_insert_at.
  destruct (bool_decide (platform cfg ≠ "win32")), (is_git_managed cfg);
    simpl; split; try done; try (intros _; exists ["git"]; set_solver).
  all: intros (g & Hg & Hx); exfalso; elems Hg; elems Hx.
Qed.

Lemma name_group_keys cfg x :
  x ∈ name_group cfg → x = "icon" ∨ x = "name".
Proof.
  unfold name_group, list_insert_at.
  destruct (IconType_is_none (icon cfg)); simpl; intros Hx; elems Hx; auto.
Qed.

Lemma elem_of_filter_bool {A} (f : A → bool) (l : list A) (x : A) :
  x ∈ List.filter f l ↔ x ∈ l ∧ f x = true.
Proof. rewrite !list_elem_of_In. apply filter_In. Qed.

(** A selected group is the name group or the filtered image of a
    candidate group, the latter only under a non-empty selection. *)
Lemma selected_col_groups_inv cfg g :
  g ∈ selected_col_groups cfg ↔
  g = name_group cfg ∨
  ∃ dets cg, details cfg = Some dets ∧ dets ≠ [] ∧ cg ∈ col_groups cfg ∧
             g = List.filter (column_in_details dets) cg.
Proof.
  unfold selected_col_groups. rewrite elem_of_app, list_elem_of_singleton.
  destruct (details cfg) as [[|tok toks]|].
  - split; [intros [H|H]; [by apply elem_of_nil in H|by left]|].
    intros [->|(d & cg & Hd & Hne & _)]; [by right|]. by simplify_eq.
  - rewrite list_elem_of_fmap. split.
    + intros [(cg & -> & Hcg)| ->]; [right|by left].
      exists (tok :: toks), cg. done.
    + intros [->|(d & cg & Hd & _ & Hcg & ->)]; [by right|left].
      simplify_eq. by exists cg.
  - split; [intros [H|H]; [by apply elem_of_nil in H|by left]|].
    intros [->|(d & cg & Hd & _)]; [by right|]. done.
Qed.

Lemma selected_col_groups_spacer_free cfg g :
  g ∈ selected_col_groups cfg → "spacer" ∉ g.
Proof.
  rewrite selected_col_groups_inv.
  intros [->|(d & cg & _ & _ & Hcg & ->)] Hin.
  - by apply name_group_keys in Hin as [?|?].
  - apply elem_of_filter_bool in Hin as [Hin _].
    pose proof (col_groups_keys _ _ _ Hcg Hin) as Hk.
    unfold detail_keys in Hk. elems Hk.
Qed.

Lemma retained_groups_proper cfg :
  Forall proper_group (retained_groups cfg).
Proof.
  apply Forall_forall. intros g Hg.
  apply elem_of_filter_bool in Hg as [Hg Hlen]. split.
  - intros ->. done.
  - by apply selected_col_groups_spacer_free in Hg.
Qed.

Lemma elem_of_join_spacer groups x :
  x ≠ "spacer" →
  x ∈ join_spacer groups ↔ ∃ g, g ∈ groups ∧ x ∈ g.
Proof.
  intros Hx. induction groups as [|g rest IH].
  - simpl. split; [by intros ?%elem_of_nil|].
    by intros (g & ?%elem_of_nil & _).
  - destruct rest as [|g' rest].
    + simpl. split; [intros ?; exists g; split; [has_elem|done]|].
      intros (g0 & Hg0 & ?). apply list_elem_of_singleton in Hg0. by subst.
    + rewrite join_spacer_cons, elem_of_app, elem_of_cons, IH. split.
      * intros [?|[?|(g0 & ? & ?)]]; [exists g; split; [has_elem|done]|done|].
        exists g0. split; [by apply list_elem_of_further|done].
      * intros (g0 & Hg0 & ?). apply elem_of_cons in Hg0 as [->|?]; [by left|].
        right; right. by exists g0.
Qed.

(** Membership of a key other than the spacer in the selector's result. *)
Lemma elem_of_get_columns cfg x :
  x ≠ "spacer" →
  x ∈ get_columns cfg ↔
  x ∈ name_group cfg ∨
  ∃ dets cg, details cfg = Some dets ∧ dets ≠ [] ∧ cg ∈ col_groups cfg ∧
             x ∈ cg ∧ column_in_details dets x = true.
Proof.
  intros Hx. rewrite get_columns_join, elem_of_join_spacer by done. split.
  - intros (g & Hg & Hin). apply elem_of_filter_bool in Hg as [Hg _].
    apply selected_col_groups_inv in Hg as [->|(d & cg & ? & ? & ? & ->)];
      [by left|right].
    apply elem_of_filter_bool in Hin as [? ?]. by exists d, cg.
  - intros [Hin|(d & cg & Hd & Hne & Hcg & Hin & Hf)].
    + exists (name_group cfg). split; [|done].
      apply elem_of_filter_bool. split.
      * apply selected_col_groups_inv. by left.
      * by destruct (name_group cfg); [apply elem_of_nil in Hin|].
    + assert (Hfin : x ∈ List.filter (column_in_details d) cg)
        by by apply elem_of_filter_bool.
      exists (List.filter (column_in_details d) cg). split; [|done].
      apply elem_of_filter_bool. split.
      * apply selected_col_groups_inv. right. by exists d, cg.
      * by destruct (List.filter _ cg); [apply elem_of_nil in Hfin|].
Qed.

Lemma get_columns_known cfg x :
  x ∈ get_columns cfg →
  x ∈ "spacer" :: "icon" :: "name" :: detail_keys.
Proof.
  intros Hin. destruct (decide (x = "spacer")) as [->|Hx]; [has_elem|].
  apply elem_of_get_columns in Hin; [|done].
  destruct Hin as [Hin|(d & cg & _ & _ & Hcg & Hin & _)].
  - apply name_group_keys in Hin as [->| ->]; has_elem.
  - do 3 apply list_elem_of_further. by apply (col_groups_keys cfg cg).
Qed.

(** ** The selector on particular selections *)

Lemma column_in_details_wildcard dets col_name :
  "+" ∈ dets → column_in_details dets col_name = true.
Proof.
  intros Hw. unfold column_in_details.
  rewrite (bool_decide_eq_true_2 _ Hw). apply orb_true_r.
Qed.

Lemma filter_wildcard dets (col_group : list string) :
  "+" ∈ dets → List.filter (column_in_details dets) col_group = col_group.
Proof.
  intros Hw. induction col_group as [|c rest IH]; simpl; [done|].
  by rewrite column_in_details_wildcard, IH.
Qed.

(** C1, as stated, fails: with the wildcard on a platform other than
    win32 the selector does not return the sequence in which user and group
    follow size; the key after the second spacer is user, not size. *)
Lemma C1_claimed_order_refuted :
  (get_columns (mkConfig (Some ["+"]) NONE false "linux" false)
   ≠ ["inode"; "links"; "spacer"; "type"; "perms"; "spacer"; "size"; "spacer";
      "user"; "group"; "spacer"; "ctime"; "mtime"; "atime"; "spacer"; "name"])
  ∧ (get_columns (mkConfig (Some ["+"]) NONE false "linux" false) !! 6%nat
     = Some "user").
Proof. split; [intros H; vm_compute in H; discriminate H | reflexivity]. Qed.

(** C1, amended: when the detail selection holds the wildcard token, the
    platform is not win32, the directory is not version controlled and
    icons are off, the selector returns inode, links, spacer, type, perms,
    spacer, user, group, spacer, size, spacer, ctime, mtime, atime, spacer,
    name; the user and group pair sits at index 2 of the candidate groups,
    directly before the size group. *)
Theorem C1_wildcard_scenario (dets : list string) (align : bool)
    (plat : string) :
  "+" ∈ dets →
  plat ≠ "win32" →
  get_columns (mkConfig (Some dets) NONE align plat false)
  = ["inode"; "links"; "spacer"; "type"; "perms"; "spacer"; "user"; "group";
     "spacer"; "size"; "spacer"; "ctime"; "mtime"; "atime"; "spacer"; "name"].
Proof.
  intros Hw Hplat.
  unfold get_columns, selected_col_groups, col_groups, name_group.
  cbn [details icon platform is_git_managed IconType_is_none].
  rewrite (bool_decide_eq_true_2 _ Hplat).
  destruct dets as [|tok toks]; [by apply elem_of_nil in Hw|].
  cbn [list_insert_at take drop app map].
  rewrite !filter_wildcard by done. reflexivity.
Qed.

Lemma C1_wildcard_scenario_witness :
  "+" ∈ ["+"] ∧ "linux" ≠ "win32" ∧
  get_columns (mkConfig (Some ["+"]) NONE false "linux" false)
  = ["inode"; "links"; "spacer"; "type"; "perms"; "spacer"; "user"; "group";
     "spacer"; "size"; "spacer"; "ctime"; "mtime"; "atime"; "spacer"; "name"].
Proof.
  split; [has_elem|]. split; [discriminate|].
  apply (C1_wildcard_scenario ["+"] false "linux"); [has_elem|discriminate].
Defined.

(** C2, as stated, fails: under the selection size, perms the type key is
    not kept, so the group type, perms is not among the retained groups. *)
Lemma C2_type_not_retained :
  ("type" ∉ get_columns (scenario_C false "linux")) ∧
  (["type"; "perms"] ∉ retained_groups (scenario_C false "linux")).
Proof.
  split; intros H; vm_compute in H; elems H.
Qed.

(** C2, amended: under the selection size, perms with the other toggles
    unset, the retained detail groups are perms alone and size; type is
    filtered out because it was not requested.  The returned sequence is
    perms, spacer, size, spacer, name: one spacer between the two detail
    groups and one before name. *)
Theorem C2_partial_selection (align : bool) (plat : string) :
  retained_groups (scenario_C align plat) = [["perms"]; ["size"]; ["name"]] ∧
  get_columns (scenario_C align plat)
  = ["perms"; "spacer"; "size"; "spacer"; "name"].
Proof.
  unfold retained_groups, get_columns, selected_col_groups, col_groups.
  cbn [scenario_C details icon platform is_git_managed].
  destruct (bool_decide (plat ≠ "win32")); split; vm_compute; reflexivity.
Qed.

(** C5: when [args.details] is falsy the selector returns name alone, or
    icon and name when an icon mode is set; no spacer and no detail key
    occurs in it. *)
Theorem C5_details_disabled (cfg : Config) :
  truthy (details cfg) = false →
  get_columns cfg
  = (if IconType_is_none (icon cfg) then ["name"] else ["icon"; "name"]) ∧
  ("spacer" ∉ get_columns cfg) ∧
  (∀ key, key ∈ detail_keys → key ∉ get_columns cfg).
Proof.
  intros Hoff.
  assert (Hcols : get_columns cfg
    = if IconType_is_none (icon cfg) then ["name"] else ["icon"; "name"]).
  { unfold get_columns, selected_col_groups, name_group.
    destruct (details cfg) as [[|tok toks]|]; try discriminate Hoff;
      by destruct (IconType_is_none (icon cfg)). }
  rewrite Hcols. split; [done|].
  unfold detail_keys.
  split; [|intros key Hkey]; destruct (IconType_is_none (icon cfg));
    intros Hin; elems Hin; elems Hkey.
Qed.

Lemma C5_details_disabled_witness :
  truthy (details (mkConfig (Some []) (Glyphs "emoji") true "win32" true))
  = false ∧
  get_columns (mkConfig (Some []) (Glyphs "emoji") true "win32" true)
  = ["icon"; "name"] ∧
  ("spacer" ∉ get_columns (mkConfig (Some []) (Glyphs "emoji") true "win32" true)) ∧
  (∀ key, key ∈ detail_keys →
     key ∉ get_columns (mkConfig (Some []) (Glyphs "emoji") true "win32" true)).
Proof.
  split; [reflexivity|].
  apply (C5_details_disabled
           (mkConfig (Some []) (Glyphs "emoji") true "win32" true)).
  reflexivity.
Defined.

(** C7: git is among the returned keys exactly when [args.details] is
    truthy, git passes the detail filter (it is requested or the wildcard
    is) and the directory is version controlled. *)
Theorem C7_git_gating (cfg : Config) :
  "git" ∈ get_columns cfg ↔
  truthy (details cfg) = true ∧
  (∃ dets, details cfg = Some dets ∧ column_in_details dets "git" = true) ∧
  is_git_managed cfg = true.
Proof.
  rewrite elem_of_get_columns by discriminate. split.
  - intros [Hin|(dets & cg & Hd & Hne & Hcg & Hin & Hf)].
    + by apply name_group_keys in Hin as [?|?].
    + split; [rewrite Hd; by destruct dets|].
      split; [by exists dets|]. apply col_groups_git. by exists cg.
  - intros (Hon & (dets & Hd & Hf) & Hgit). right.
    apply col_groups_git in Hgit as (cg & Hcg & Hin).
    exists dets, cg. rewrite Hd in Hon.
    repeat split; try done. by intros ->.
Qed.

(** ** The registry covers the selector *)

Lemma column_spec_map_known align key :
  key ∈ "spacer" :: "icon" :: "name" :: detail_keys →
  is_Some (column_spec_map align !! key).
Proof.
  unfold detail_keys. intros Hkey.
  elems Hkey; destruct align; vm_compute; eauto.
Qed.

Lemma declare_columns_columns registry keys table :
  columns (declare_columns registry keys table)
  = columns table ++
    omap (fun key =>
            (fun col => mkColumn (default "" (cs_name col))
                                 (default no_attrs (cs_attrs col)))
            <$> registry !! key) keys.
Proof.
  unfold declare_columns. revert table.
  induction keys as [|key keys IH]; intros table; simpl.
  - by rewrite app_nil_r.
  - rewrite IH. unfold declare_column.
    destruct (registry !! key) as [col|]; simpl; [|done].
    by rewrite <- app_assoc.
Qed.

Lemma declare_columns_show_header registry keys table :
  show_header (declare_columns registry keys table) = show_header table.
Proof.
  unfold declare_columns. revert table.
  induction keys as [|key keys IH]; intros table; simpl; [done|].
  rewrite IH. unfold declare_column. by destruct (registry !! key).
Qed.

Lemma omap_all_found {A B} (f : A → option B) (l : list A) :
  Forall (fun x => is_Some (f x)) l → length (omap f l) = length l.
Proof.
  induction 1 as [|x l [y Hy] _ IH]; simpl; [done|].
  rewrite Hy. simpl. f_equal. exact IH.
Qed.

(** C10: every key the selector returns, the spacer and the pseudo-columns
    type and icon included, has an entry in the registry; so the lookup of
    [get_table] never misses on the selector's output and the table gets
    one column for each selected key. *)
Theorem C10_selected_keys_registered (cfg : Config) :
  Forall (fun key => is_Some (column_spec_map (no_align cfg) !! key))
         (get_columns cfg) ∧
  length (columns (get_table cfg)) = length (get_columns cfg).
Proof.
  assert (Hall : Forall (fun key =>
            is_Some (column_spec_map (no_align cfg) !! key)) (get_columns cfg)).
  { apply Forall_forall. intros key Hkey.
    by apply column_spec_map_known, get_columns_known with cfg. }
  split; [done|].
  unfold get_table. rewrite declare_columns_columns. simpl.
  apply omap_all_found.
  eapply Forall_impl; [exact Hall|]. intros key [col ->]. simpl. eauto.
Qed.

(** ** The header row *)

(** C3, as stated, fails: for an empty selection that is not [None] the
    selector treats detail rendering as disabled and returns the name group
    alone, yet the table shows its header. *)
Lemma C3_header_without_details :
  truthy (details (mkConfig (Some []) NONE false "linux" false)) = false ∧
  get_columns (mkConfig (Some []) NONE false "linux" false) = ["name"] ∧
  show_header (get_table (mkConfig (Some []) NONE false "linux" false)) = true.
Proof. repeat split. Qed.

(** C3, amended: the table shows a header row exactly when [args.details]
    is not [None]; hence it shows one whenever the selector considers the
    detail groups (a non-empty selection) and none when [args.details] is
    [None]. *)
Theorem C3_header_iff_details_given (cfg : Config) :
  show_header (get_table cfg) = is_not_None (details cfg) ∧
  implb (truthy (details cfg)) (show_header (get_table cfg)) = true.
Proof.
  unfold get_table. rewrite declare_columns_show_header. simpl.
  split; [done|]. by destruct (details cfg) as [[|tok toks]|].
Qed.

(** ** The table skeleton for an arbitrary list of keys *)

(** C9, as stated, fails: a key without a registry entry is passed over;
    no column is declared for it, so the table has fewer columns than
    keys. *)
Lemma C9_unknown_key_declares_nothing :
  column_spec_map false !! "owner" = None ∧
  columns (declare_columns (column_spec_map false) ["owner"] (new_table true))
  = [] ∧
  length (columns (declare_columns (column_spec_map false)
                                   ["inode"; "owner"; "name"]
                                   (new_table true)))
  ≠ length ["inode"; "owner"; "name"].
Proof. repeat split. vm_compute. discriminate. Qed.

(** C9, amended: for every registry and every ordered key list the column
    loop never fails; it declares, in order, one column for each key found
    in the registry, with the entry's display name and render attributes,
    and declares nothing for a key absent from the registry.  The number of
    columns is the number of keys found. *)
Theorem C9_columns_of_registered_keys (registry : gmap string ColumnSpec)
    (keys : list string) (show : bool) :
  columns (declare_columns registry keys (new_table show))
  = omap (fun key => column_of <$> registry !! key) keys ∧
  length (columns (declare_columns registry keys (new_table show)))
  = length (List.filter (fun key => bool_decide (is_Some (registry !! key)))
                        keys).
Proof.
  rewrite declare_columns_columns. simpl. split; [done|].
  induction keys as [|key keys IH]; simpl; [done|].
  destruct (registry !! key) as [col|] eqn:Hkey; simpl.
  - f_equal. exact IH.
  - exact IH.
Qed.

(** ** The rows *)

(** C6: for an entry whose row data is present, whatever keys it holds, the
    appended row has one cell per selected key, in the order of the keys;
    the cell of a key is the value the data holds for it, and the empty
    string when the data holds none. *)
Theorem C6_row_matches_columns (cfg : Config) (table : Table)
    (data : gmap string string) :
  rows (add_node_row cfg table (mkNode (Some data)))
  = rows table ++ [row_cells (get_columns cfg) data] ∧
  length (row_cells (get_columns cfg) data) = length (get_columns cfg) ∧
  (∀ i : nat,
     row_cells (get_columns cfg) data !! i
     = (fun key => match data !! key with Some cell => cell | None => "" end)
       <$> get_columns cfg !! i).
Proof.
  split; [done|]. unfold row_cells. split; [apply length_map|].
  intros i. rewrite list_lookup_fmap.
  destruct (get_columns cfg !! i) as [key|]; simpl; [|done].
  by destruct (data !! key).
Qed.

(** ** Where the spacers are *)

Lemma join_spacer_nonempty g rest :
  g ≠ [] → join_spacer (g :: rest) ≠ [].
Proof. destruct rest; simpl; [done|]. by destruct g. Qed.

Lemma join_spacer_head g rest :
  g ≠ [] → head (join_spacer (g :: rest)) = head g.
Proof. destruct rest; simpl; [done|]. by destruct g. Qed.

Lemma join_spacer_last groups x :
  Forall proper_group groups →
  last (join_spacer groups) = Some x → x ≠ "spacer".
Proof.
  induction 1 as [|g rest [Hne Hfree] Hrest IH]; [done|].
  destruct rest as [|g' rest].
  - simpl. intros Hlast%last_Some_elem_of ->. done.
  - rewrite join_spacer_cons, last_app, last_cons.
    apply Forall_cons in Hrest as Hg'. destruct Hg' as [[Hne' _] _].
    pose proof (join_spacer_nonempty g' rest Hne') as HJ.
    apply last_is_Some in HJ as [y Hy]. rewrite Hy. rewrite Hy in IH.
    exact IH.
Qed.

(** A spacer in the layout of proper groups separates two of them: what
    precedes it is the layout of the groups up to the first, what follows
    it the layout of the groups from the second on. *)
Lemma join_spacer_split groups (i : nat) :
  Forall proper_group groups →
  join_spacer groups !! i = Some "spacer" →
  ∃ before g1 g2 after,
    groups = before ++ g1 :: g2 :: after ∧
    take i (join_spacer groups) = join_spacer (before ++ [g1]) ∧
    drop (S i) (join_spacer groups) = join_spacer (g2 :: after).
Proof.
  intros Hall. revert i.
  induction Hall as [|g rest [Hne Hfree] Hrest IH]; intros i; [done|].
  destruct rest as [|g' rest].
  - simpl. intros Hin%list_elem_of_lookup_2. done.
  - rewrite join_spacer_cons. intros Hi.
    destruct (decide (i < length g)) as [Hlt|Hge].
    { rewrite lookup_app_l in Hi by done.
      by apply list_elem_of_lookup_2 in Hi. }
    destruct (decide (i = length g)) as [->|Hneq].
    { exists [], g, g', rest. split; [done|]. split.
      - by rewrite take_app_length.
      - replace (S (length g)) with (length g + 1)%nat by lia.
        by rewrite drop_app_add. }
    assert (Hj : ∃ j : nat, i = (length g + S j)%nat)
      by (exists (i - length g - 1)%nat; lia).
    destruct Hj as [j ->].
    rewrite lookup_app_r in Hi by lia.
    replace (length g + S j - length g)%nat with (S j) in Hi by lia.
    simpl in Hi.
    destruct (IH j Hi) as (before & g1 & g2 & after & Heq & Htake & Hdrop).
    exists (g :: before), g1, g2, after. split; [by rewrite Heq|]. split.
    + rewrite take_app_add. cbn [take]. rewrite Htake.
      by destruct before.
    + replace (S (length g + S j)) with (length g + S (S j))%nat by lia.
      rewrite drop_app_add. cbn [drop]. exact Hdrop.
Qed.

(** C4: in the sequence the selector returns no two neighbours are both
    spacers, the first key is not a spacer, the last key is not a spacer,
    and every spacer stands between two retained groups, each of them
    non-empty and free of spacers: the keys before it are the layout of the
    retained groups up to one group, the keys after it the layout of the
    retained groups that follow. *)
Theorem C4_spacers_between_groups (cfg : Config) :
  (∀ i : nat, get_columns cfg !! i = Some "spacer" →
              get_columns cfg !! S i ≠ Some "spacer") ∧
  head (get_columns cfg) ≠ Some "spacer" ∧
  last (get_columns cfg) ≠ Some "spacer" ∧
  Forall proper_group (retained_groups cfg) ∧
  (∀ i : nat, get_columns cfg !! i = Some "spacer" →
     ∃ before g1 g2 after,
       retained_groups cfg = before ++ g1 :: g2 :: after ∧
       take i (get_columns cfg) = join_spacer (before ++ [g1]) ∧
       drop (S i) (get_columns cfg) = join_spacer (g2 :: after)).
Proof.
  pose proof (retained_groups_proper cfg) as Hall.
  rewrite get_columns_join.
  assert (Hsplit : ∀ i : nat,
    join_spacer (retained_groups cfg) !! i = Some "spacer" →
    ∃ before g1 g2 after,
      retained_groups cfg = before ++ g1 :: g2 :: after ∧
      take i (join_spacer (retained_groups cfg)) = join_spacer (before ++ [g1]) ∧
      drop (S i) (join_spacer (retained_groups cfg)) = join_spacer (g2 :: after))
    by (intros i; by apply join_spacer_split).
  repeat split; try done.
  - intros i Hi Hnext.
    destruct (Hsplit i Hi) as (before & g1 & g2 & after & Heq & _ & Hdrop).
    assert (Hg2 : proper_group g2).
    { rewrite Heq in Hall. apply Forall_app in Hall as [_ Hall].
      apply Forall_cons in Hall as [_ Hall].
      by apply Forall_cons in Hall as [? _]. }
    destruct Hg2 as [Hne Hfree].
    assert (Hhd : head (drop (S i) (join_spacer (retained_groups cfg)))
                  = Some "spacer").
    { rewrite head_lookup, lookup_drop. by rewrite Nat.add_0_r. }
    rewrite Hdrop, join_spacer_head in Hhd by done.
    by apply head_Some_elem_of in Hhd.
  - destruct Hall as [|g rest [Hne Hfree] _]; [done|].
    rewrite join_spacer_head by done.
    by intros Hhd%head_Some_elem_of.
  - intros Hlast. by apply join_spacer_last in Hlast.
Qed.

(** ** The selector over the store: the primitive steps *)

Lemma bind_run {A B} (m : M A) (k : A → M B) s :
  bind m k s = match m s with Some (x, s') => k x s' | None => None end.
Proof. reflexivity. Qed.

Lemma load_run g objs a o :
  objs !! a = Some o → load a (mkStore g objs) = Some (o, mkStore g objs).
Proof. unfold load. simpl. by intros ->. Qed.

Lemma store_at_run g objs a o o' :
  objs !! a = Some o' →
  store_at a o (mkStore g objs) = Some (tt, mkStore g (<[a:=o]> objs)).
Proof. unfold store_at. simpl. by intros ->. Qed.

Lemma py_len_run g objs a o :
  objs !! a = Some o →
  py_len a (mkStore g objs) = Some (length o, mkStore g objs).
Proof. intros H. unfold py_len. by rewrite bind_run, (load_run _ _ _ _ H). Qed.

Lemma py_append_run g objs a o v :
  objs !! a = Some o →
  py_append a v (mkStore g objs)
  = Some (tt, mkStore g (<[a:=o ++ [v]]> objs)).
Proof.
  intros H. unfold py_append.
  by rewrite bind_run, (load_run _ _ _ _ H), (store_at_run _ _ _ _ _ H).
Qed.

Lemma py_extend_run g objs a o vs :
  objs !! a = Some o →
  py_extend a vs (mkStore g objs) = Some (tt, mkStore g (<[a:=o ++ vs]> objs)).
Proof.
  intros H. unfold py_extend.
  by rewrite bind_run, (load_run _ _ _ _ H), (store_at_run _ _ _ _ _ H).
Qed.

Lemma py_insert_run g objs a o i v :
  objs !! a = Some o →
  py_insert a i v (mkStore g objs)
  = Some (tt, mkStore g (<[a:=list_insert_at i v o]> objs)).
Proof.
  intros H. unfold py_insert.
  by rewrite bind_run, (load_run _ _ _ _ H), (store_at_run _ _ _ _ _ H).
Qed.

Lemma elem_of_strs (c : string) (l : list string) : VStr c ∈ strs l ↔ c ∈ l.
Proof.
  unfold strs. rewrite list_elem_of_fmap. split.
  - intros (y & Hy & ?). by simplify_eq.
  - intros ?. by exists c.
Qed.

Lemma strs_app l1 l2 : strs (l1 ++ l2) = strs l1 ++ strs l2.
Proof. apply fmap_app. Qed.

Lemma strs_length l : length (strs l) = length l.
Proof. apply length_fmap. Qed.

Lemma extends_trans n0 objs1 objs2 objs3 :
  extends n0 objs1 objs2 → extends n0 objs2 objs3 → extends n0 objs1 objs3.
Proof.
  intros [Hl1 H1] [Hl2 H2]. split; [lia|].
  intros a Ha. by rewrite H2, H1.
Qed.

Lemma extends_prefix objs objs' :
  extends (length objs) objs objs' → ∃ fresh, objs' = objs ++ fresh.
Proof.
  intros [Hlen Hsame]. exists (drop (length objs) objs').
  rewrite <- (take_drop (length objs) objs') at 1. f_equal.
  apply list_eq. intros a.
  destruct (decide (a < length objs)) as [Ha|Ha].
  - rewrite lookup_take_lt by done. by apply Hsame.
  - rewrite lookup_take_ge by lia. symmetry. apply lookup_ge_None. lia.
Qed.

(** ** The list comprehension and the filtering loop *)

Lemma comprehension_run g objs d dets items :
  g_details g = Some d →
  objs !! d = Some (strs dets) →
  comprehension (strs items) (mkStore g objs)
  = Some (strs (List.filter (column_in_details dets) items), mkStore g objs).
Proof.
  intros Hd Hdets. induction items as [|c items IH]; [done|].
  cbn [strs fmap list_fmap comprehension]. rewrite bind_run.
  unfold column_in_details_h at 1. rewrite bind_run.
  unfold read_globals at 1. cbn [globals]. rewrite Hd, bind_run.
  rewrite (load_run _ _ _ _ Hdets). unfold ret at 1.
  rewrite bind_run. fold (strs items). rewrite IH. unfold ret.
  cbn [List.filter].
  rewrite (bool_decide_ext _ _ (elem_of_strs c dets)).
  rewrite (bool_decide_ext _ _ (elem_of_strs "+" dets)).
  change (bool_decide (c ∈ dets) || bool_decide ("+" ∈ dets))
    with (column_in_details dets c).
  by destruct (column_in_details dets c).
Qed.

Lemma groups_preserved (objs objs' : list (list val)) addrs groups :
  Forall2 (fun a grp => objs !! a = Some (strs grp)) addrs groups →
  (∀ a : nat, a ∈ addrs → objs' !! a = objs !! a) →
  Forall2 (fun a grp => objs' !! a = Some (strs grp)) addrs groups.
Proof.
  induction 1 as [|a grp addrs groups Ha _ IH]; intros Hsame; [done|].
  constructor.
  - rewrite Hsame; [done|has_elem].
  - apply IH. intros a' Ha'. apply Hsame. by apply list_elem_of_further.
Qed.

Lemma groups_bound (objs : list (list val)) addrs groups (a : nat) :
  Forall2 (fun a grp => objs !! a = Some (strs grp)) addrs groups →
  a ∈ addrs → a < length objs.
Proof.
  induction 1 as [|a0 grp addrs groups Ha _ IH]; intros Hin.
  - by apply elem_of_nil in Hin.
  - apply elem_of_cons in Hin as [->|Hin]; [|by apply IH].
    by apply lookup_lt_Some in Ha.
Qed.

Lemma filter_loop_run g d dets :
  g_details g = Some d →
  ∀ (addrs : list nat) (groups : list (list string))
    (objs : list (list val)) (sel : nat) (sel_items : list val),
    Forall2 (fun a grp => objs !! a = Some (strs grp)) addrs groups →
    objs !! d = Some (strs dets) →
    d ≠ sel →
    sel ∉ addrs →
    objs !! sel = Some sel_items →
    filter_loop sel (VRef <$> addrs) (mkStore g objs)
    = Some (tt, mkStore g
        (<[sel := sel_items ++ (VRef <$> seq (length objs) (length addrs))]> objs
         ++ ((fun grp => strs (List.filter (column_in_details dets) grp))
             <$> groups))).
Proof.
  intros Hd. induction addrs as [|a addrs IH];
    intros groups objs sel sel_items HF Hdets Hdsel Hsel Hitems.
  - apply Forall2_nil_inv_l in HF as ->. simpl.
    rewrite !app_nil_r. by rewrite list_insert_id.
  - apply Forall2_cons_inv_l in HF as (grp & groups' & Ha & HF & ->).
    apply not_elem_of_cons in Hsel as [Hsa Hsel].
    pose proof (lookup_lt_Some _ _ _ Hitems) as Hlt.
    cbn [fmap list_fmap filter_loop].
    rewrite bind_run, (load_run _ _ _ _ Ha).
    rewrite bind_run, (comprehension_run _ _ _ _ _ Hd Hdets).
    rewrite bind_run. unfold alloc at 1. cbn [objects globals].
    set (kept := strs (List.filter (column_in_details dets) grp)).
    assert (Hitems' : (objs ++ [kept]) !! sel = Some sel_items)
      by by apply lookup_app_l_Some.
    rewrite bind_run, (py_append_run _ _ _ _ _ Hitems').
    fold (@fmap list _ nat val VRef addrs).
    rewrite (IH groups' _ sel (sel_items ++ [VRef (length objs)])).
    + rewrite list_insert_insert_eq, length_insert, length_app.
      rewrite insert_app_l by done.
      cbn [length fmap list_fmap]. rewrite <- !app_assoc.
      replace (length objs + 1)%nat with (S (length objs)) by lia.
      reflexivity.
    + apply (groups_preserved objs); [done|]. intros a' Ha'.
      rewrite list_lookup_insert_ne by (by intros ->).
      apply lookup_app_l. by apply (groups_bound objs addrs groups').
    + rewrite list_lookup_insert_ne by done. by apply lookup_app_l_Some.
    + done.
    + done.
    + apply list_lookup_insert_eq. rewrite length_app. lia.
Qed.

(** ** The flattening loop over the store *)

Lemma flatten_loop_h_run g (sel fl len : nat) (all_refs : list val) :
  sel ≠ fl →
  length all_refs = len →
  ∀ (addrs : list nat) (groups : list (list string))
    (objs : list (list val)) (index : nat) (acc : list string),
    Forall2 (fun a grp => objs !! a = Some (strs grp)) addrs groups →
    NoDup addrs →
    sel ∉ addrs →
    fl ∉ addrs →
    objs !! sel = Some all_refs →
    objs !! fl = Some (strs acc) →
    ∃ objs',
      flatten_loop_h sel fl index (VRef <$> addrs) (mkStore g objs)
      = Some (tt, mkStore g objs') ∧
      objs' !! fl = Some (strs (flatten_loop len index groups acc)) ∧
      length objs' = length objs ∧
      ∀ a : nat, a ∉ addrs → a ≠ fl → objs' !! a = objs !! a.
Proof.
  intros Hsf Hlen. induction addrs as [|a addrs IH];
    intros groups objs index acc HF Hnd Hsel Hfl Hrefs Hacc.
  - apply Forall2_nil_inv_l in HF as ->. exists objs. by simpl.
  - apply Forall2_cons_inv_l in HF as (grp & groups' & Ha & HF & ->).
    apply NoDup_cons in Hnd as [Hna Hnd].
    apply not_elem_of_cons in Hsel as [Hsa Hsel].
    apply not_elem_of_cons in Hfl as [Hfa Hfl].
    pose proof (lookup_lt_Some _ _ _ Ha) as Halt.
    pose proof (lookup_lt_Some _ _ _ Hacc) as Hflt.
    cbn [fmap list_fmap flatten_loop_h flatten_loop].
    rewrite bind_run, (py_len_run _ _ _ _ Ha), strs_length.
    destruct (length grp =? 0)%nat.
    { destruct (IH groups' objs (S index) acc) as (objs' & Hrun & Hres & Hl & Hfr);
        try done.
      exists objs'. repeat split; try done.
      intros a0 Ha0 ?. apply Hfr; [|done].
      by apply not_elem_of_cons in Ha0 as [_ ?]. }
    rewrite bind_run, (py_len_run _ _ _ _ Hrefs), Hlen, bind_run.
    set (grp' := if negb (index =? len - 1)%nat
                 then grp ++ ["spacer"] else grp).
    assert (Hstep : ∃ objs1,
      (if negb (index =? len - 1)%nat
       then py_append a (VStr "spacer") else ret tt) (mkStore g objs)
      = Some (tt, mkStore g objs1) ∧
      objs1 !! a = Some (strs grp') ∧
      length objs1 = length objs ∧
      ∀ a0 : nat, a0 ≠ a → objs1 !! a0 = objs !! a0).
    { subst grp'. destruct (negb (index =? len - 1)%nat).
      - exists (<[a:=strs grp ++ [VStr "spacer"]]> objs).
        rewrite (py_append_run _ _ _ _ _ Ha). split; [done|].
        rewrite strs_app. split; [by apply list_lookup_insert_eq|].
        split; [apply length_insert|].
        intros a0 ?. by apply list_lookup_insert_ne.
      - exists objs. by repeat split. }
    destruct Hstep as (objs1 & -> & Ha1 & Hl1 & Hfr1).
    rewrite bind_run, (load_run _ _ _ _ Ha1), bind_run.
    assert (Hacc1 : objs1 !! fl = Some (strs acc)) by by rewrite Hfr1.
    rewrite (py_extend_run _ _ _ _ _ Hacc1), <- strs_app.
    set (objs2 := <[fl:=strs (acc ++ grp')]> objs1).
    destruct (IH groups' objs2 (S index) (acc ++ grp'))
      as (objs' & Hrun & Hres & Hl & Hfr); try done.
    + apply (groups_preserved objs); [done|]. intros a0 Ha0. unfold objs2.
      rewrite list_lookup_insert_ne by (by intros ->).
      apply Hfr1. by intros ->.
    + unfold objs2. rewrite list_lookup_insert_ne by done.
      by rewrite Hfr1.
    + unfold objs2. apply list_lookup_insert_eq. lia.
    + exists objs'. split; [done|]. split; [done|].
      split; [by rewrite Hl; unfold objs2; rewrite length_insert|].
      intros a0 Ha0 Hne. apply not_elem_of_cons in Ha0 as [? ?].
      rewrite Hfr by done. unfold objs2.
      rewrite list_lookup_insert_ne by done. by apply Hfr1.
Qed.

(** ** The three blocks of the selector over the store *)

Lemma alloc_at g (base L : list (list val)) o :
  alloc o (mkStore g (base ++ L))
  = Some ((length base + length L)%nat, mkStore g (base ++ (L ++ [o]))).
Proof. unfold alloc. simpl. by rewrite length_app, <- app_assoc. Qed.

Lemma lookup_at (base L : list (list val)) (k : nat) :
  (base ++ L) !! (length base + k)%nat = L !! k.
Proof. rewrite lookup_app_r by lia. f_equal. lia. Qed.

(** Run the next primitive of a block on a store of the form
    [base ++ L], with [L] given by its elements. *)
Ltac step :=
  rewrite ?bind_run;
  first
    [ rewrite alloc_at
    | unfold read_globals at 1
    | unfold ret at 1
    | erewrite py_insert_run by (rewrite lookup_at; reflexivity);
      rewrite insert_app_r
    | erewrite py_append_run by (rewrite lookup_at; reflexivity);
      rewrite insert_app_r
    | erewrite load_run by (rewrite lookup_at; reflexivity) ];
  cbn [globals objects length app insert list_insert lookup list_lookup
       list_insert_at take drop].

Lemma fresh_objects_at {A} (f : A → list val) (xs : list A)
    (base : list (list val)) :
  Forall2 (fun a x => (base ++ (f <$> xs)) !! a = Some (f x))
          (seq (length base) (length xs)) xs.
Proof.
  revert base. induction xs as [|x xs IH]; intros base; [constructor|].
  cbn [length seq fmap list_fmap]. constructor.
  - by rewrite list_lookup_middle.
  - specialize (IH (base ++ [f x])).
    rewrite length_app, <- app_assoc in IH. simpl in IH.
    by rewrite Nat.add_1_r in IH.
Qed.

(** The end of [select_details]: the filtering loop run on the candidate
    groups at [addrs], the new objects of the block being [L]. *)
Lemma filter_loop_holds g d dets (objs L : list (list val)) (n0 sel : nat)
    (addrs : list nat) (groups : list (list string)) :
  g_details g = Some d →
  objs !! d = Some (strs dets) →
  d < n0 → n0 ≤ sel →
  objs !! sel = Some [] →
  Forall2 (fun a grp => (objs ++ L) !! a = Some (strs grp)) addrs groups →
  Forall (fun a => length objs ≤ a) addrs →
  ∃ objs',
    filter_loop sel (VRef <$> addrs) (mkStore g (objs ++ L))
    = Some (tt, mkStore g objs') ∧
    holds_groups n0 objs' sel
      (map (fun col_group => List.filter (column_in_details dets) col_group)
           groups) ∧
    extends n0 objs objs'.
Proof.
  intros Hd Hdets Hdn Hns Hsel HF Hfresh.
  pose proof (lookup_lt_Some _ _ _ Hsel) as Hlt.
  assert (Hnotin : sel ∉ addrs).
  { intros Hin. rewrite Forall_forall in Hfresh.
    specialize (Hfresh _ Hin). lia. }
  eexists. split; [|split].
  - apply (filter_loop_run g d dets Hd addrs groups (objs ++ L) sel []);
      try done.
    + by apply lookup_app_l_Some.
    + lia.
    + by apply lookup_app_l_Some.
  - set (base := <[sel:=_]> (objs ++ L)).
    assert (Hbase : length base = length (objs ++ L))
      by apply length_insert.
    exists (seq (length (objs ++ L)) (length addrs)).
    split; [|split; [|split; [apply NoDup_seq|split]]].
    + rewrite lookup_app_l by (rewrite Hbase, length_app; lia).
      unfold base. rewrite list_lookup_insert_eq by (rewrite length_app; lia).
      done.
    + rewrite <- Hbase.
      pose proof (fresh_objects_at
        (fun grp => strs (List.filter (column_in_details dets) grp))
        groups base) as Hfo.
      rewrite (Forall2_length _ _ _ HF).
      apply Forall2_fmap_r. eapply Forall2_impl; [exact Hfo|]. done.
    + rewrite elem_of_seq, length_app. lia.
    + apply Forall_forall. intros a. rewrite elem_of_seq, length_app. lia.
  - split.
    + rewrite length_app, length_insert, length_app. lia.
    + intros a Ha. rewrite lookup_app_l by (rewrite length_insert, length_app; lia).
      rewrite list_lookup_insert_ne by lia. apply lookup_app_l. lia.
Qed.

(** Discharge the side conditions of [filter_loop_holds] for addresses and
    objects given by their elements. *)
Ltac fresh_groups :=
  first
    [ repeat (constructor; [by rewrite lookup_at|]); by constructor
    | repeat (constructor; [lia|]); by constructor ].

(** One case of [select_details]: run the block up to the filtering loop,
    then conclude with [filter_loop_holds]; [shape] lists the addresses of
    the candidate groups as placeholders. *)
Ltac select_details_case Hplat Hgit shape :=
  match goal with
  | |- ∃ objs', select_details ?sel (mkStore ?g ?objs) = _ ∧
                holds_groups _ _ _ (map _ ?groups) ∧ _ =>
      let Hrun := fresh "Hrun" in
      assert (Hrun : ∃ L addrs,
        select_details sel (mkStore g objs)
        = filter_loop sel (VRef <$> addrs) (mkStore g (objs ++ L)) ∧
        Forall2 (fun a grp => (objs ++ L) !! a = Some (strs grp)) addrs groups ∧
        Forall (fun a => length objs ≤ a) addrs);
      [ eexists _, shape; split; [|split];
        [ unfold select_details;
          replace (mkStore g objs) with (mkStore g (objs ++ []))
            by (by rewrite app_nil_r);
          step; rewrite Hplat, Hgit; repeat step; reflexivity
        | cbn [list_insert_at take drop app]; fresh_groups
        | fresh_groups ]
      | let L := fresh "L" in
        let addrs := fresh "addrs" in
        let HF := fresh "HF" in
        let Hfresh := fresh "Hfresh" in
        destruct Hrun as (L & addrs & -> & HF & Hfresh);
        by eapply (filter_loop_holds g _ _ objs L _ sel addrs) ]
  end.

Lemma select_details_run g d dets (objs : list (list val)) (n0 sel : nat)
    (ds : option (list string)) (align : bool) :
  g_details g = Some d →
  objs !! d = Some (strs dets) →
  d < n0 → n0 ≤ sel →
  objs !! sel = Some [] →
  ∃ objs',
    select_details sel (mkStore g objs) = Some (tt, mkStore g objs') ∧
    holds_groups n0 objs' sel
      (map (fun col_group => List.filter (column_in_details dets) col_group)
           (col_groups (config_of g ds align))) ∧
    extends n0 objs objs'.
Proof.
  intros Hd Hdets Hdn Hns Hsel.
  unfold col_groups. cbn [config_of platform is_git_managed].
  destruct (bool_decide (g_platform g ≠ "win32")) eqn:Hplat,
           (g_is_git_managed g) eqn:Hgit.
  - select_details_case Hplat Hgit uconstr:([_; _; _; _; _; _]).
  - select_details_case Hplat Hgit uconstr:([_; _; _; _; _]).
  - select_details_case Hplat Hgit uconstr:([_; _; _; _; _]).
  - select_details_case Hplat Hgit uconstr:([_; _; _; _]).
Qed.

Lemma append_group_holds g (objs : list (list val)) (n0 sel : nat)
    (groups : list (list string)) (grp : list string) :
  holds_groups n0 objs sel groups →
  n0 ≤ sel →
  ∃ objs',
    py_append sel (VRef (length objs)) (mkStore g (objs ++ [strs grp]))
    = Some (tt, mkStore g objs') ∧
    holds_groups n0 objs' sel (groups ++ [grp]) ∧
    extends n0 objs objs'.
Proof.
  intros (addrs & Hsel & HF & Hnd & Hnotin & Hlow) Hns.
  pose proof (lookup_lt_Some _ _ _ Hsel) as Hlt.
  assert (Hsel' : (objs ++ [strs grp]) !! sel = Some (VRef <$> addrs))
    by by apply lookup_app_l_Some.
  eexists. split; [exact (py_append_run _ _ _ _ _ Hsel')|]. split.
  - exists (addrs ++ [length objs]). split; [|split; [|split; [|split]]].
    + rewrite list_lookup_insert_eq by (rewrite length_app; lia).
      by rewrite fmap_app.
    + apply Forall2_app.
      * apply (groups_preserved objs); [done|]. intros a Ha.
        rewrite list_lookup_insert_ne by (by intros ->).
        apply lookup_app_l. by apply (groups_bound objs addrs groups).
      * constructor; [|constructor].
        rewrite list_lookup_insert_ne by lia. by rewrite list_lookup_middle.
    + apply NoDup_app. split; [done|]. split; [|apply NoDup_singleton].
      intros a Ha Hin. apply list_elem_of_singleton in Hin.
      pose proof (groups_bound objs addrs groups a HF Ha). lia.
    + rewrite elem_of_app, list_elem_of_singleton. intros [?|?]; [done|lia].
    + apply Forall_app. split; [done|]. constructor; [lia|constructor].
  - split.
    + rewrite length_insert, length_app. lia.
    + intros a Ha. rewrite list_lookup_insert_ne by lia.
      apply lookup_app_l. lia.
Qed.

Lemma add_name_group_run g (objs : list (list val)) (n0 sel : nat)
    (groups : list (list string)) (ds : option (list string)) (align : bool) :
  holds_groups n0 objs sel groups →
  n0 ≤ sel →
  ∃ objs',
    add_name_group sel (mkStore g objs) = Some (tt, mkStore g objs') ∧
    holds_groups n0 objs' sel (groups ++ [name_group (config_of g ds align)]) ∧
    extends n0 objs objs'.
Proof.
  intros Hholds Hns. unfold add_name_group, name_group.
  cbn [config_of icon].
  rewrite bind_run. unfold read_globals at 1. cbn [globals].
  rewrite bind_run. unfold alloc at 1. cbn [globals objects].
  destruct (IconType_is_none (g_icon g)).
  - rewrite bind_run. unfold ret at 1.
    by apply append_group_holds.
  - rewrite bind_run.
    erewrite py_insert_run by (by rewrite list_lookup_middle).
    replace (<[length objs:=_]> (objs ++ _))
      with (objs ++ [strs (list_insert_at 0 "icon" ["name"])]).
    + by apply append_group_holds.
    + rewrite insert_app_r_alt by lia. by rewrite Nat.sub_diag.
Qed.

Lemma flatten_groups_run g (objs : list (list val)) (n0 sel : nat)
    (groups : list (list string)) :
  holds_groups n0 objs sel groups →
  n0 ≤ sel →
  ∃ objs',
    flatten_groups sel (mkStore g objs)
    = Some (length objs, mkStore g objs') ∧
    objs' !! length objs
    = Some (strs (flatten_loop (length groups) 0 groups [])) ∧
    extends n0 objs objs'.
Proof.
  intros (addrs & Hsel & HF & Hnd & Hnotin & Hlow) Hns.
  pose proof (lookup_lt_Some _ _ _ Hsel) as Hlt.
  unfold flatten_groups.
  rewrite bind_run. unfold alloc at 1. cbn [globals objects].
  rewrite bind_run.
  erewrite load_run by (by apply lookup_app_l_Some).
  destruct (flatten_loop_h_run g sel (length objs) (length groups)
              (VRef <$> addrs)) with (addrs := addrs) (groups := groups)
      (objs := objs ++ [[]]) (index := 0) (acc := @nil string)
    as (objs' & Hrun & Hres & Hlen & Hframe).
  - lia.
  - rewrite length_fmap. by apply Forall2_length in HF.
  - apply (groups_preserved objs); [done|]. intros a Ha.
    apply lookup_app_l. by apply (groups_bound objs addrs groups).
  - done.
  - done.
  - intros Hin. pose proof (groups_bound objs addrs groups _ HF Hin). lia.
  - by apply lookup_app_l_Some.
  - by rewrite list_lookup_middle.
  - exists objs'. rewrite bind_run, Hrun. split; [done|]. split; [done|].
    split.
    + rewrite Hlen, length_app. lia.
    + intros a Ha. rewrite Hframe.
      * apply lookup_app_l. lia.
      * intros Hin. rewrite Forall_forall in Hlow.
        specialize (Hlow _ Hin). lia.
      * lia.
Qed.

(** ** The whole selector over the store *)

Lemma selector_tail_run g (objs objs2 : list (list val)) (sel : nat)
    (groups : list (list string)) (ds : option (list string)) (align : bool) :
  holds_groups (length objs) objs2 sel groups →
  length objs ≤ sel →
  extends (length objs) objs objs2 →
  selected_col_groups (config_of g ds align)
  = groups ++ [name_group (config_of g ds align)] →
  ∃ r objs',
    (run! add_name_group sel in flatten_groups sel) (mkStore g objs2)
    = Some (r, mkStore g objs') ∧
    objs' !! r = Some (strs (get_columns (config_of g ds align))) ∧
    length objs ≤ r ∧
    extends (length objs) objs objs'.
Proof.
  intros Hholds Hsel Hext Hgroups.
  destruct (add_name_group_run g objs2 (length objs) sel groups ds align)
    as (objs3 & Hrun3 & Hholds3 & Hext3); [done..|].
  destruct (flatten_groups_run g objs3 (length objs) sel _ Hholds3 Hsel)
    as (objs4 & Hrun4 & Hres & Hext4).
  exists (length objs3), objs4.
  rewrite bind_run, Hrun3, Hrun4. split; [done|]. split; [|split].
  - unfold get_columns. by rewrite Hgroups.
  - destruct Hext as [? _], Hext3 as [? _]. lia.
  - eauto using extends_trans.
Qed.

Lemma get_columns_h_run (s : Store) (ds : option (list string))
    (align : bool) :
  details_at s ds →
  ∃ r objs',
    get_columns_h s = Some (r, mkStore (globals s) objs') ∧
    objs' !! r
    = Some (strs (get_columns (config_of (globals s) ds align))) ∧
    length (objects s) ≤ r ∧
    extends (length (objects s)) (objects s) objs'.
Proof.
  destruct s as [g objs]. unfold details_at. cbn [globals objects].
  intros Hds. unfold get_columns_h.
  rewrite bind_run. unfold alloc at 1. cbn [globals objects].
  assert (Hext1 : extends (length objs) objs (objs ++ [[]])).
  { split; [rewrite length_app; lia|]. intros a Ha. by apply lookup_app_l. }
  assert (Hholds1 : holds_groups (length objs) (objs ++ [[]]) (length objs) []).
  { exists []. rewrite list_lookup_middle by done.
    repeat split; try constructor. by intros ?%elem_of_nil. }
  rewrite bind_run. unfold details_truthy at 1.
  rewrite bind_run. unfold read_globals at 1. cbn [globals].
  destruct (g_details g) as [d|] eqn:Hd, ds as [toks|]; try done.
  - pose proof (lookup_lt_Some _ _ _ Hds) as Hdlt.
    rewrite bind_run.
    erewrite py_len_run by (by apply lookup_app_l_Some).
    unfold ret at 1. rewrite strs_length.
    destruct toks as [|tok toks]; cbn [length Nat.eqb negb].
    + rewrite bind_run. unfold ret at 1.
      by apply (selector_tail_run g objs _ _ []).
    + rewrite bind_run.
      destruct (select_details_run g d (tok :: toks) (objs ++ [[]])
                  (length objs) (length objs) (Some (tok :: toks)) align)
        as (objs2 & -> & Hholds2 & Hext2); try done.
      * by apply lookup_app_l_Some.
      * by rewrite list_lookup_middle.
      * eapply (selector_tail_run g objs objs2); [exact Hholds2|lia| |done].
        eauto using extends_trans.
  - unfold ret at 1. rewrite bind_run. unfold ret at 1.
    by apply (selector_tail_run g objs _ _ []).
Qed.

Lemma extends_details_at g (objs objs' : list (list val)) ds :
  details_at (mkStore g objs) ds →
  extends (length objs) objs objs' →
  details_at (mkStore g objs') ds.
Proof.
  unfold details_at. cbn [globals objects].
  destruct (g_details g) as [d|], ds as [toks|]; try done.
  intros Hd [_ Hsame]. rewrite Hsame; [done|]. by apply lookup_lt_Some in Hd.
Qed.

(** C8: the selector is a function of the configuration alone and writes
    to no object that existed before the call.  Started in any store whose
    [args.details] is [None] or a list of tokens, [get_columns] returns a
    new list holding the keys computed from the detail tokens, the icon
    mode, the platform and the version-control flag; the globals, the
    column registry among them, and every earlier object are as before.  A
    second call from the resulting store returns another new list with the
    same keys and leaves the first result as it was. *)
Theorem C8_selector_pure (s : Store) (ds : option (list string))
    (align : bool) :
  details_at s ds →
  ∃ (r1 r2 : nat) (fresh1 fresh2 : list (list val)),
    get_columns_h s
    = Some (r1, mkStore (globals s) (objects s ++ fresh1)) ∧
    get_columns_h (mkStore (globals s) (objects s ++ fresh1))
    = Some (r2, mkStore (globals s) ((objects s ++ fresh1) ++ fresh2)) ∧
    objects s !! r1 = None ∧
    (objects s ++ fresh1) !! r2 = None ∧
    (objects s ++ fresh1) !! r1
    = Some (strs (get_columns (config_of (globals s) ds align))) ∧
    ((objects s ++ fresh1) ++ fresh2) !! r1
    = Some (strs (get_columns (config_of (globals s) ds align))) ∧
    ((objects s ++ fresh1) ++ fresh2) !! r2
    = Some (strs (get_columns (config_of (globals s) ds align))).
Proof.
  intros Hds.
  destruct (get_columns_h_run s ds align Hds)
    as (r1 & objs1 & Hrun1 & Hres1 & Hnew1 & Hext1).
  destruct (extends_prefix _ _ Hext1) as [fresh1 ->].
  assert (Hds1 : details_at (mkStore (globals s) (objects s ++ fresh1)) ds).
  { destruct s as [g objs]. by apply (extends_details_at g objs). }
  destruct (get_columns_h_run _ ds align Hds1)
    as (r2 & objs2 & Hrun2 & Hres2 & Hnew2 & Hext2).
  cbn [globals objects] in Hrun2, Hres2, Hnew2, Hext2.
  destruct (extends_prefix _ _ Hext2) as [fresh2 ->].
  exists r1, r2, fresh1, fresh2.
  repeat split; try done.
  - by apply lookup_ge_None.
  - by apply lookup_ge_None.
  - by apply lookup_app_l_Some.
Qed.

Lemma C8_selector_pure_witness :
  details_at demo_store (Some ["size"; "git"; "type"]) ∧
  ∃ (r1 r2 : nat) (fresh1 fresh2 : list (list val)),
    get_columns_h demo_store
    = Some (r1, mkStore (globals demo_store)
                        (objects demo_store ++ fresh1)) ∧
    get_columns_h (mkStore (globals demo_store)
                           (objects demo_store ++ fresh1))
    = Some (r2, mkStore (globals demo_store)
                        ((objects demo_store ++ fresh1) ++ fresh2)) ∧
    objects demo_store !! r1 = None ∧
    (objects demo_store ++ fresh1) !! r2 = None ∧
    (objects demo_store ++ fresh1) !! r1
    = Some (strs ["type"; "spacer"; "size"; "spacer"; "git"; "spacer";
                  "name"]) ∧
    ((objects demo_store ++ fresh1) ++ fresh2) !! r1
    = Some (strs ["type"; "spacer"; "size"; "spacer"; "git"; "spacer";
                  "name"]) ∧
    ((objects demo_store ++ fresh1) ++ fresh2) !! r2
    = Some (strs ["type"; "spacer"; "size"; "spacer"; "git"; "spacer";
                  "name"]).
Proof.
  split; [reflexivity|].
  apply (C8_selector_pure demo_store (Some ["size"; "git"; "type"]) false).
  reflexivity.
Defined.

(** * Further properties of the selector *)

(** ** Which detail keys are shown *)

Lemma col_groups_plain cfg key :
  key ∈ plain_detail_keys → ∃ g, g ∈ col_groups cfg ∧ key ∈ g.
Proof.
  unfold plain_detail_keys, col_groups, list_insert_at. intros Hkey.
  destruct (bool_decide (platform cfg ≠ "win32")), (is_git_managed cfg);
    cbn [take drop app]; elems Hkey;
    first [ exists ["inode"; "links"]; split; solve [has_elem]
          | exists ["type"; "perms"]; split; solve [has_elem]
          | exists ["size"]; split; solve [has_elem]
          | exists ["ctime"; "mtime"; "atime"]; split; solve [has_elem] ].
Qed.

Lemma col_groups_owner cfg key :
  key ∈ ["user"; "group"] →
  (∃ g, g ∈ col_groups cfg ∧ key ∈ g) ↔ platform cfg ≠ "win32".
Proof.
  unfold col_groups, list_insert_at. intros Hkey.
  destruct (decide (platform cfg ≠ "win32")) as [Hp|Hp].
  - rewrite (bool_decide_eq_true_2 _ Hp). split; [done|]. intros _.
    exists ["user"; "group"].
    destruct (is_git_managed cfg); cbn [take drop app]; split;
      elems Hkey; has_elem.
  - rewrite (bool_decide_eq_false_2 _ Hp). split; [|done].
    intros (g & Hg & Hin). exfalso.
    destruct (is_git_managed cfg); cbn [app] in Hg; elems Hg; elems Hkey;
      elems Hin.
Qed.

Lemma column_in_details_nonempty dets key :
  column_in_details dets key = true → dets ≠ [].
Proof. intros H ->. by vm_compute in H. Qed.

(** X1: user and group are shown exactly when the platform is not win32
    and the key passes the detail filter; on win32 they never are. *)
Theorem owner_columns_gating (cfg : Config) :
  Forall (fun key =>
            key ∈ get_columns cfg ↔
            platform cfg ≠ "win32" ∧
            ∃ dets, details cfg = Some dets ∧
                    column_in_details dets key = true)
         ["user"; "group"].
Proof.
  apply Forall_forall. intros key Hkey.
  rewrite elem_of_get_columns by (intros ->; elems Hkey). split.
  - intros [Hin|(dets & cg & Hd & Hne & Hcg & Hin & Hf)].
    + apply name_group_keys in Hin as [-> | ->]; elems Hkey.
    + split; [|by exists dets]. apply (col_groups_owner cfg key Hkey).
      by exists cg.
  - intros (Hp & dets & Hd & Hf). right.
    apply (col_groups_owner cfg key Hkey) in Hp as (cg & Hcg & Hin).
    exists dets, cg. repeat split; try done.
    by apply column_in_details_nonempty with key.
Qed.

(** X2: each of inode, links, type, perms, size, ctime, mtime and atime is
    shown exactly when it passes the detail filter, whatever the platform,
    the version-control status and the icon mode. *)
Theorem plain_columns_gating (cfg : Config) :
  Forall (fun key =>
            key ∈ get_columns cfg ↔
            ∃ dets, details cfg = Some dets ∧
                    column_in_details dets key = true)
         plain_detail_keys.
Proof.
  apply Forall_forall. intros key Hkey.
  assert (Hsp : key ≠ "spacer")
    by (intros ->; unfold plain_detail_keys in Hkey; elems Hkey).
  rewrite elem_of_get_columns by done. split.
  - intros [Hin|(dets & cg & Hd & Hne & Hcg & Hin & Hf)].
    + unfold plain_detail_keys in Hkey.
      apply name_group_keys in Hin as [-> | ->]; elems Hkey.
    + by exists dets.
  - intros (dets & Hd & Hf). right.
    destruct (col_groups_plain cfg key Hkey) as (cg & Hcg & Hin).
    exists dets, cg. repeat split; try done.
    by apply column_in_details_nonempty with key.
Qed.

(** ** The name group closes the sequence *)

Lemma selected_col_groups_split cfg :
  selected_col_groups cfg = detail_groups cfg ++ [name_group cfg].
Proof. reflexivity. Qed.

Lemma retained_groups_split cfg :
  retained_groups cfg
  = List.filter (fun g => negb (length g =? 0)) (detail_groups cfg)
    ++ [name_group cfg].
Proof.
  unfold retained_groups. rewrite selected_col_groups_split, List.filter_app.
  f_equal. unfold name_group. by destruct (IconType_is_none (icon cfg)).
Qed.

Lemma detail_groups_inv cfg g :
  g ∈ detail_groups cfg ↔
  ∃ dets cg, details cfg = Some dets ∧ dets ≠ [] ∧ cg ∈ col_groups cfg ∧
             g = List.filter (column_in_details dets) cg.
Proof.
  unfold detail_groups. destruct (details cfg) as [[|tok toks]|].
  - split; [by intros ?%elem_of_nil|]. intros (d & cg & ? & ? & _).
    by simplify_eq.
  - rewrite list_elem_of_fmap. split.
    + intros (cg & -> & Hcg). by exists (tok :: toks), cg.
    + intros (d & cg & ? & _ & Hcg & ->). simplify_eq. by exists cg.
  - split; [by intros ?%elem_of_nil|]. by intros (d & cg & ? & _).
Qed.

Lemma detail_groups_keys cfg g x :
  g ∈ detail_groups cfg → x ∈ g → x ∈ detail_keys.
Proof.
  intros (dets & cg & _ & _ & Hcg & ->)%detail_groups_inv Hin.
  apply elem_of_filter_bool in Hin as [Hin _].
  by apply (col_groups_keys cfg cg).
Qed.

Lemma join_spacer_snoc groups g :
  groups ≠ [] →
  join_spacer (groups ++ [g]) = join_spacer groups ++ "spacer" :: g.
Proof.
  induction groups as [|a rest IH]; [done|]. intros _.
  destruct rest as [|b rest]; [done|].
  change ((a :: b :: rest) ++ [g]) with (a :: (b :: rest) ++ [g]).
  cbn [app]. rewrite !join_spacer_cons.
  change (b :: rest ++ [g]) with ((b :: rest) ++ [g]).
  rewrite IH by done. by rewrite <- app_assoc.
Qed.

Lemma elem_of_join_spacer_inv groups x :
  x ∈ join_spacer groups → x = "spacer" ∨ ∃ g, g ∈ groups ∧ x ∈ g.
Proof.
  intros Hin. destruct (decide (x = "spacer")) as [?|Hx]; [by left|right].
  by apply elem_of_join_spacer.
Qed.

(** X3: the selector's result ends with the name group, that is name,
    preceded by icon when an icon mode is set; what comes before is empty
    or ends with a spacer and holds only spacers and detail keys, so name
    and icon occur nowhere else. *)
Theorem name_group_closes_columns (cfg : Config) :
  ∃ pre,
    get_columns cfg
    = pre ++ (if IconType_is_none (icon cfg)
              then ["name"] else ["icon"; "name"]) ∧
    (pre = [] ∨ last pre = Some "spacer") ∧
    Forall (fun key => key ∈ "spacer" :: detail_keys) pre.
Proof.
  rewrite get_columns_join, retained_groups_split.
  change (if IconType_is_none (icon cfg) then ["name"] else ["icon"; "name"])
    with (name_group cfg).
  set (shown := List.filter _ (detail_groups cfg)).
  assert (Hshown : ∀ g, g ∈ shown → g ∈ detail_groups cfg).
  { intros g Hg. by apply elem_of_filter_bool in Hg as [? _]. }
  clearbody shown. destruct shown as [|g0 rest].
  - exists []. repeat split; [by left|constructor].
  - exists (join_spacer (g0 :: rest) ++ ["spacer"]).
    rewrite join_spacer_snoc by done. rewrite <- app_assoc.
    split; [done|]. split; [right; apply last_snoc|].
    apply Forall_app. split; [|constructor; [has_elem|constructor]].
    apply Forall_forall. intros x Hx.
    apply elem_of_join_spacer_inv in Hx as [->|(g & Hg & Hx)]; [has_elem|].
    apply list_elem_of_further. eapply detail_groups_keys; [|exact Hx].
    by apply Hshown.
Qed.

(** ** The selection as a set of tokens *)

Lemma col_groups_with_details cfg dets :
  col_groups (with_details cfg dets) = col_groups cfg.
Proof. reflexivity. Qed.

Lemma filter_bool_ext_in {A} (f g : A → bool) (l : list A) :
  (∀ x, x ∈ l → f x = g x) → List.filter f l = List.filter g l.
Proof.
  induction l as [|a l IH]; intros Hext; [done|]. simpl.
  rewrite (Hext a) by has_elem. rewrite IH; [done|].
  intros x Hx. apply Hext. by apply list_elem_of_further.
Qed.

Lemma filter_bool_none {A} (f : A → bool) (l : list A) :
  (∀ x, x ∈ l → f x = false) → List.filter f l = [].
Proof.
  induction l as [|a l IH]; intros Hext; [done|]. simpl.
  rewrite (Hext a) by has_elem. apply IH.
  intros x Hx. apply Hext. by apply list_elem_of_further.
Qed.

Lemma get_columns_only_name cfg :
  (∀ g, g ∈ detail_groups cfg → g = []) →
  get_columns cfg = name_group cfg.
Proof.
  intros Hnone. rewrite get_columns_join, retained_groups_split.
  replace (List.filter (fun g => negb (length g =? 0)) (detail_groups cfg))
    with (@nil (list string)); [done|].
  symmetry. apply filter_bool_none. intros g Hg. by rewrite (Hnone g Hg).
Qed.

Lemma get_columns_no_token cfg dets :
  (∀ key, key ∈ "+" :: detail_keys → key ∉ dets) →
  get_columns (with_details cfg dets) = name_group cfg.
Proof.
  intros Hno. rewrite get_columns_only_name; [done|].
  intros g (d & cg & Hd & _ & Hcg & ->)%detail_groups_inv.
  cbn [with_details details] in Hd. simplify_eq.
  apply filter_bool_none. intros x Hx.
  pose proof (col_groups_keys _ _ _ Hcg Hx) as Hkey.
  unfold column_in_details.
  rewrite !bool_decide_eq_false_2; [done| |].
  - apply Hno. has_elem.
  - apply Hno. by apply list_elem_of_further.
Qed.

(** X4: the selector reads the detail selection as a set of recognised
    tokens: two selections that hold the same detail keys and agree on the
    wildcard give the same columns, whatever the order of their tokens,
    their repetitions and their other tokens; this includes the empty
    selection against one made of unrecognised tokens only. *)
Theorem selection_is_a_token_set (cfg : Config) (dets dets' : list string) :
  same_tokens dets dets' →
  get_columns (with_details cfg dets) = get_columns (with_details cfg dets').
Proof.
  intros Hsame.
  destruct (decide (Exists (fun key => key ∈ dets) ("+" :: detail_keys)))
    as [Hsome|Hnone].
  - assert (Hsome' : Exists (fun key => key ∈ dets') ("+" :: detail_keys)).
    { apply Exists_exists in Hsome as (key & Hkey & Hin).
      apply Exists_exists. exists key. split; [done|]. by apply Hsame. }
    assert (Hne : dets ≠ []).
    { apply Exists_exists in Hsome as (key & _ & Hin). intros ->.
      by apply elem_of_nil in Hin. }
    assert (Hne' : dets' ≠ []).
    { apply Exists_exists in Hsome' as (key & _ & Hin). intros ->.
      by apply elem_of_nil in Hin. }
    unfold get_columns, selected_col_groups.
    cbn [with_details details]. rewrite !col_groups_with_details.
    destruct dets as [|tok toks]; [done|].
    destruct dets' as [|tok' toks']; [done|].
    replace (map (fun col_group =>
                    List.filter (column_in_details (tok :: toks)) col_group)
                 (col_groups cfg))
      with (map (fun col_group =>
                   List.filter (column_in_details (tok' :: toks')) col_group)
                (col_groups cfg)); [done|].
    apply map_ext_in. intros cg Hcg%list_elem_of_In.
    apply filter_bool_ext_in. intros x Hx.
    pose proof (col_groups_keys _ _ _ Hcg Hx) as Hkey.
    unfold column_in_details. f_equal; apply bool_decide_ext; symmetry;
      apply Hsame; [by apply list_elem_of_further|has_elem].
  - rewrite !get_columns_no_token; [done| |].
    + intros key Hkey Hin. apply Hnone, Exists_exists.
      exists key. split; [done|]. by apply Hsame.
    + intros key Hkey Hin. apply Hnone, Exists_exists. by exists key.
Qed.

Lemma selection_is_a_token_set_witness :
  same_tokens ["size"; "verbose"; "perms"; "size"] ["perms"; "size"] ∧
  get_columns (with_details full_config ["size"; "verbose"; "perms"; "size"])
  = get_columns (with_details full_config ["perms"; "size"]).
Proof.
  assert (Hsame : same_tokens ["size"; "verbose"; "perms"; "size"]
                              ["perms"; "size"]).
  { intros key Hkey. unfold detail_keys in Hkey.
    split; intros Hin; elems Hkey; elems Hin; has_elem. }
  split; [exact Hsame|].
  exact (selection_is_a_token_set full_config _ _ Hsame).
Defined.

(** X5: once the selection holds the wildcard its other tokens do not
    matter: the columns are those of the selection made of the wildcard
    alone. *)
Theorem wildcard_absorbs_tokens (cfg : Config) (dets : list string) :
  "+" ∈ dets →
  get_columns (with_details cfg dets) = get_columns (with_details cfg ["+"]).
Proof.
  intros Hw.
  assert (Hgroups : selected_col_groups (with_details cfg dets)
                    = selected_col_groups (with_details cfg ["+"])).
  { unfold selected_col_groups.
    cbn [with_details details]. rewrite !col_groups_with_details.
    destruct dets as [|tok toks]; [by apply elem_of_nil in Hw|].
    f_equal. apply map_ext. intros cg.
    rewrite !filter_wildcard; [done|has_elem|done]. }
  unfold get_columns. by rewrite Hgroups.
Qed.

Lemma wildcard_absorbs_tokens_witness :
  "+" ∈ ["git"; "+"; "size"] ∧
  get_columns (with_details full_config ["git"; "+"; "size"])
  = get_columns (with_details full_config ["+"]).
Proof.
  split; [has_elem|].
  apply (wildcard_absorbs_tokens full_config ["git"; "+"; "size"]). has_elem.
Defined.

(** ** The order of the keys and the number of spacers *)

Lemma without_spacers_app l1 l2 :
  without_spacers (l1 ++ l2) = without_spacers l1 ++ without_spacers l2.
Proof. apply List.filter_app. Qed.

Lemma without_spacers_free g :
  "spacer" ∉ g → without_spacers g = g.
Proof.
  induction g as [|x g IH]; intros Hfree; [done|].
  apply not_elem_of_cons in Hfree as [Hx Hfree].
  unfold without_spacers. simpl.
  destruct (String.eqb_spec x "spacer") as [->|_]; [done|].
  simpl. f_equal. by apply IH.
Qed.

Lemma without_spacers_join groups :
  Forall proper_group groups →
  without_spacers (join_spacer groups) = concat groups.
Proof.
  induction 1 as [|g rest [_ Hfree] _ IH]; [done|].
  destruct rest as [|g' rest].
  - simpl. rewrite app_nil_r. by apply without_spacers_free.
  - rewrite join_spacer_cons, without_spacers_app.
    rewrite without_spacers_free by done.
    change (without_spacers ("spacer" :: join_spacer (g' :: rest)))
      with (without_spacers (join_spacer (g' :: rest))).
    by rewrite IH.
Qed.

Lemma concat_nonempty (groups : list (list string)) :
  concat (List.filter (fun g => negb (length g =? 0)) groups) = concat groups.
Proof.
  induction groups as [|g rest IH]; [done|]. simpl.
  destruct g as [|x g]; simpl; [done|]. by rewrite IH.
Qed.

Lemma filter_bool_sublist {A} (f : A → bool) (l : list A) :
  List.filter f l `sublist_of` l.
Proof.
  induction l as [|x l IH]; simpl; [constructor|].
  destruct (f x); by constructor.
Qed.

Lemma concat_filter_sublist (f : string → bool) (groups : list (list string)) :
  concat (map (List.filter f) groups) `sublist_of` concat groups.
Proof.
  induction groups as [|g rest IH]; simpl; [constructor|].
  apply sublist_app; [apply filter_bool_sublist|done].
Qed.

(** A sublist of a list given by its elements, matched from the left. *)
Ltac is_sublist :=
  repeat first [apply sublist_nil | apply sublist_skip | apply sublist_cons].

Lemma col_groups_order cfg :
  concat (col_groups cfg) `sublist_of` detail_keys.
Proof.
  unfold col_groups, detail_keys, list_insert_at.
  destruct (bool_decide (platform cfg ≠ "win32")), (is_git_managed cfg);
    simpl; is_sublist.
Qed.

Lemma detail_groups_order cfg :
  concat (detail_groups cfg) `sublist_of` detail_keys.
Proof.
  unfold detail_groups. destruct (details cfg) as [[|tok toks]|];
    try apply sublist_nil_l.
  etrans; [apply concat_filter_sublist|apply col_groups_order].
Qed.

Lemma get_columns_without_spacers cfg :
  without_spacers (get_columns cfg)
  = concat (detail_groups cfg) ++ name_group cfg.
Proof.
  rewrite get_columns_join.
  rewrite without_spacers_join by apply retained_groups_proper.
  unfold retained_groups. rewrite concat_nonempty, selected_col_groups_split.
  rewrite concat_app. simpl. by rewrite app_nil_r.
Qed.

(** X6: the keys are laid out in one fixed order: with the spacers taken
    out, the selector's result is a sublist of inode, links, type, perms,
    user, group, size, ctime, mtime, atime, git, icon, name; in particular
    no key other than the spacer occurs twice. *)
Theorem columns_follow_canonical_order (cfg : Config) :
  without_spacers (get_columns cfg) `sublist_of` canonical_order ∧
  NoDup (without_spacers (get_columns cfg)).
Proof.
  assert (Hsub : without_spacers (get_columns cfg) `sublist_of` canonical_order).
  { rewrite get_columns_without_spacers. unfold canonical_order.
    apply sublist_app; [apply detail_groups_order|].
    unfold name_group, list_insert_at.
    destruct (IconType_is_none (icon cfg)); simpl; is_sublist. }
  split; [done|]. eapply sublist_NoDup; [|exact Hsub].
  unfold canonical_order, detail_keys. simpl.
  repeat (apply NoDup_cons; split;
          [intros Hin; elems Hin|]).
  apply NoDup_nil_2.
Qed.

Lemma count_spacers_app l1 l2 :
  count_spacers (l1 ++ l2) = count_spacers l1 + count_spacers l2.
Proof. unfold count_spacers. by rewrite List.filter_app, length_app. Qed.

Lemma count_spacers_free g : "spacer" ∉ g → count_spacers g = 0.
Proof.
  induction g as [|x g IH]; intros Hfree; [done|].
  apply not_elem_of_cons in Hfree as [Hx Hfree].
  unfold count_spacers. simpl.
  destruct (String.eqb_spec x "spacer") as [->|_]; [done|]. by apply IH.
Qed.

Lemma count_spacers_join groups :
  Forall proper_group groups →
  count_spacers (join_spacer groups) = length groups - 1.
Proof.
  induction 1 as [|g rest [_ Hfree] _ IH]; [done|].
  destruct rest as [|g' rest].
  - simpl. by apply count_spacers_free.
  - rewrite join_spacer_cons, count_spacers_app.
    rewrite count_spacers_free by done.
    change (count_spacers ("spacer" :: join_spacer (g' :: rest)))
      with (S (count_spacers (join_spacer (g' :: rest)))).
    rewrite IH. simpl. lia.
Qed.

(** The spacer is shown exactly when some detail group keeps a key. *)
Lemma spacer_shown cfg :
  "spacer" ∈ get_columns cfg ↔ ∃ g, g ∈ detail_groups cfg ∧ g ≠ [].
Proof.
  rewrite get_columns_join, retained_groups_split.
  set (shown := List.filter _ (detail_groups cfg)).
  assert (Hshown : ∀ g, g ∈ shown ↔ g ∈ detail_groups cfg ∧ g ≠ []).
  { intros g. unfold shown. rewrite elem_of_filter_bool.
    destruct g; simpl; split; intros [? ?]; by split. }
  assert (Hfree : "spacer" ∉ name_group cfg).
  { intros Hin. by apply name_group_keys in Hin as [?|?]. }
  clearbody shown. destruct shown as [|g0 rest].
  - split; [done|]. intros (g & Hg). apply Hshown in Hg.
    by apply elem_of_nil in Hg.
  - split.
    + intros _. exists g0. apply Hshown. has_elem.
    + intros _. rewrite join_spacer_snoc by done.
      rewrite elem_of_app. right. has_elem.
Qed.

Lemma detail_key_shown cfg key :
  key ∈ detail_keys →
  key ∈ get_columns cfg ↔ ∃ g, g ∈ detail_groups cfg ∧ key ∈ g.
Proof.
  intros Hkey. unfold detail_keys in Hkey.
  rewrite elem_of_get_columns by (intros ->; elems Hkey). split.
  - intros [Hin|(dets & cg & Hd & Hne & Hcg & Hin & Hf)].
    + apply name_group_keys in Hin as [-> | ->]; elems Hkey.
    + exists (List.filter (column_in_details dets) cg). split.
      * apply detail_groups_inv. by exists dets, cg.
      * by apply elem_of_filter_bool.
  - intros (g & (dets & cg & Hd & Hne & Hcg & ->)%detail_groups_inv & Hin).
    apply elem_of_filter_bool in Hin as [Hin Hf]. right. by exists dets, cg.
Qed.

(** X7: the number of spacers is one less than the number of groups that
    keep a key, and a spacer is shown exactly when some detail key is. *)
Theorem spacers_count_groups (cfg : Config) :
  count_spacers (get_columns cfg) = length (retained_groups cfg) - 1 ∧
  ("spacer" ∈ get_columns cfg ↔
   ∃ key, key ∈ detail_keys ∧ key ∈ get_columns cfg).
Proof.
  split.
  - rewrite get_columns_join. apply count_spacers_join, retained_groups_proper.
  - rewrite spacer_shown. split.
    + intros (g & Hg & Hne). destruct g as [|key g]; [done|].
      exists key.
      assert (Hkey : key ∈ detail_keys)
        by (apply (detail_groups_keys cfg (key :: g)); [done|has_elem]).
      split; [done|]. apply detail_key_shown; [done|].
      exists (key :: g). split; [done|has_elem].
    + intros (key & Hkey & Hin).
      apply detail_key_shown in Hin as (g & Hg & Hin); [|done].
      exists g. split; [done|]. intros ->. by apply elem_of_nil in Hin.
Qed.

(** ** More tokens, more columns *)

Lemma column_in_details_mono dets dets' key :
  dets ⊆ dets' →
  column_in_details dets key = true → column_in_details dets' key = true.
Proof.
  intros Hsub. unfold column_in_details.
  rewrite !orb_true_iff, !bool_decide_eq_true. intros [?|?]; auto.
Qed.

Lemma detail_groups_mono cfg dets dets' g key :
  dets ⊆ dets' →
  g ∈ detail_groups (with_details cfg dets) → key ∈ g →
  ∃ g', g' ∈ detail_groups (with_details cfg dets') ∧ key ∈ g'.
Proof.
  intros Hsub (d & cg & Hd & Hne & Hcg & ->)%detail_groups_inv Hin.
  cbn [with_details details] in Hd. simplify_eq.
  apply elem_of_filter_bool in Hin as [Hin Hf].
  apply (column_in_details_mono _ dets') in Hf; [|done].
  exists (List.filter (column_in_details dets') cg). split.
  - apply detail_groups_inv. exists dets', cg. repeat split; try done.
    by apply column_in_details_nonempty with key.
  - by apply elem_of_filter_bool.
Qed.

(** X8: adding tokens to the selection never takes a column away: every
    key shown under a selection is shown under any selection that holds
    all of its tokens. *)
Theorem more_tokens_more_columns (cfg : Config) (dets dets' : list string) :
  dets ⊆ dets' →
  get_columns (with_details cfg dets) ⊆ get_columns (with_details cfg dets').
Proof.
  intros Hsub key Hin.
  destruct (decide (key = "spacer")) as [->|Hkey].
  - apply spacer_shown in Hin as (g & Hg & Hne). apply spacer_shown.
    destruct g as [|x g]; [done|].
    destruct (detail_groups_mono cfg dets dets' (x :: g) x Hsub Hg)
      as (g' & Hg' & Hx); [has_elem|].
    exists g'. split; [done|]. intros ->. by apply elem_of_nil in Hx.
  - apply elem_of_get_columns in Hin; [|done].
    apply elem_of_get_columns; [done|].
    destruct Hin as [Hin|(d & cg & Hd & Hne & Hcg & Hin & Hf)]; [by left|].
    right. cbn [with_details details] in Hd. simplify_eq.
    apply (column_in_details_mono _ dets') in Hf; [|done].
    exists dets', cg. repeat split; try done.
    by apply column_in_details_nonempty with key.
Qed.

Lemma more_tokens_more_columns_witness :
  ["size"] ⊆ ["git"; "size"] ∧
  get_columns (with_details full_config ["size"])
  ⊆ get_columns (with_details full_config ["git"; "size"]).
Proof.
  assert (Hsub : ["size"] ⊆ ["git"; "size"]).
  { intros x Hx. elems Hx. has_elem. }
  split; [exact Hsub|].
  exact (more_tokens_more_columns full_config _ _ Hsub).
Defined.

(** * Further properties of the table and of its rows *)

Lemma declare_columns_rows registry keys table :
  rows (declare_columns registry keys table) = rows table.
Proof.
  unfold declare_columns. revert table.
  induction keys as [|key keys IH]; intros table; simpl; [done|].
  rewrite IH. unfold declare_column. by destruct (registry !! key).
Qed.

Lemma add_node_rows cfg (all_nodes : list Node) (table : Table) :
  rows (foldl (add_node_row cfg) table all_nodes)
  = rows table ++
    omap (fun node => row_cells (get_columns cfg) <$> table_row node)
         all_nodes ∧
  columns (foldl (add_node_row cfg) table all_nodes) = columns table ∧
  show_header (foldl (add_node_row cfg) table all_nodes) = show_header table.
Proof.
  revert table. induction all_nodes as [|node rest IH]; intros table; simpl.
  - by rewrite app_nil_r.
  - destruct (IH (add_node_row cfg table node)) as (-> & -> & ->).
    unfold add_node_row. destruct (table_row node) as [data|]; simpl; [|done].
    by rewrite <- app_assoc.
Qed.

Lemma get_table_rows cfg : rows (get_table cfg) = [].
Proof. unfold get_table. by rewrite declare_columns_rows. Qed.

(** X9: [write_output] appends one row for each node whose [table_row] is
    not [None], in the order of the nodes, and passes over the others; the
    rows change neither the columns nor the header switch of the table. *)
Theorem write_output_rows (cfg : Config) (all_nodes : list Node) :
  rows (write_output cfg all_nodes)
  = omap (fun node => row_cells (get_columns cfg) <$> table_row node)
         all_nodes ∧
  columns (write_output cfg all_nodes) = columns (get_table cfg) ∧
  show_header (write_output cfg all_nodes) = is_not_None (details cfg).
Proof.
  unfold write_output.
  destruct (add_node_rows cfg all_nodes (get_table cfg)) as (-> & -> & ->).
  rewrite get_table_rows. unfold get_table.
  by rewrite declare_columns_show_header.
Qed.

Lemma get_columns_registered cfg :
  Forall (fun key => is_Some (column_spec_map (no_align cfg) !! key))
         (get_columns cfg).
Proof.
  apply Forall_forall. intros key Hkey.
  by apply column_spec_map_known, get_columns_known with cfg.
Qed.

Lemma get_table_width cfg :
  length (columns (get_table cfg)) = length (get_columns cfg).
Proof.
  unfold get_table. rewrite declare_columns_columns. simpl.
  apply omap_all_found.
  eapply Forall_impl; [apply get_columns_registered|].
  intros key [col ->]. simpl. eauto.
Qed.

(** X10: the table handed to the console is rectangular: every row has as
    many cells as the table has columns. *)
Theorem write_output_rectangular (cfg : Config) (all_nodes : list Node) :
  Forall (fun row => length row = length (columns (write_output cfg all_nodes)))
         (rows (write_output cfg all_nodes)).
Proof.
  unfold write_output.
  destruct (add_node_rows cfg all_nodes (get_table cfg)) as (-> & -> & _).
  rewrite get_table_rows, get_table_width. simpl. apply Forall_forall. intros row Hrow.
  apply list_elem_of_omap in Hrow as (node & _ & Hrow).
  destruct (table_row node) as [data|]; [|done]. simpl in Hrow.
  simplify_eq. unfold row_cells. apply length_map.
Qed.

Lemma omap_all_found_fmap {A B} (f : A → option B) (l : list A) :
  Forall (fun x => is_Some (f x)) l → f <$> l = Some <$> omap f l.
Proof.
  induction 1 as [|x l [y Hy] _ IH]; simpl; [done|].
  rewrite Hy. simpl. f_equal. exact IH.
Qed.

Lemma get_table_columns_lookup cfg :
  Some <$> columns (get_table cfg)
  = (fun key => column_of <$> column_spec_map (no_align cfg) !! key)
    <$> get_columns cfg.
Proof.
  unfold get_table. rewrite declare_columns_columns. simpl.
  symmetry. apply omap_all_found_fmap.
  eapply Forall_impl; [apply get_columns_registered|].
  intros key [col ->]. simpl. eauto.
Qed.

(** X11: the columns of the table stand in the order of the selected keys:
    the column at a position is the one the registry entry of the key at
    that position declares. *)
Theorem get_table_columns_by_position (cfg : Config) :
  Some <$> columns (get_table cfg)
  = (fun key => column_of <$> column_spec_map (no_align cfg) !! key)
    <$> get_columns cfg.
Proof. apply get_table_columns_lookup. Qed.

Lemma fmap_Some_Forall2 {A B} (f : A → option B) (P : A → Prop)
    (keys : list A) (cols : list B) :
  Forall P keys →
  Some <$> cols = f <$> keys →
  Forall2 (fun key col => P key ∧ f key = Some col) keys cols.
Proof.
  intros Hall. revert cols.
  induction Hall as [|key keys HP _ IH]; intros cols Heq.
  - destruct cols; [constructor|done].
  - destruct cols as [|col cols]; [done|]. simpl in Heq.
    injection Heq as Hcol Hrest. constructor; [done|]. by apply IH.
Qed.

(** X12: in the table of any configuration the right-justified columns
    are those of links and size, the icon column is the only one of fixed
    width (2), the columns of type and icon are the only ones with an empty
    header, and the header of the name column is Name when [args.no_align]
    is set and Name with a leading space otherwise. *)
Theorem column_attributes_by_key (cfg : Config) :
  Forall2 (fun key col =>
             (justify (col_attrs col) = Some "right" ↔
              key ∈ ["links"; "size"]) ∧
             (width (col_attrs col) = Some 2%Z ↔ key = "icon") ∧
             (header col = "" ↔ key ∈ ["type"; "icon"]) ∧
             (key = "name" →
              header col = if no_align cfg then "Name" else " Name"))
          (get_columns cfg) (columns (get_table cfg)).
Proof.
  eapply Forall2_impl.
  - apply (fmap_Some_Forall2
             (fun key => column_of <$> column_spec_map (no_align cfg) !! key)
             (fun key => key ∈ "spacer" :: "icon" :: "name" :: detail_keys)).
    + apply Forall_forall. intros key. apply get_columns_known.
    + apply get_table_columns_lookup.
  - intros key col [Hkey Hcol]. unfold detail_keys in Hkey. simpl in Hcol.
    elems Hkey; destruct (no_align cfg); vm_compute in Hcol;
      injection Hcol as <-; simpl;
      repeat split;
      try (intros H; first [discriminate H | by elems H]);
      try (intros _; first [reflexivity | solve [has_elem]]).
Qed.

Lemma get_columns_full_config :
  get_columns full_config
  = ["inode"; "links"; "spacer"; "type"; "perms"; "spacer"; "user"; "group";
     "spacer"; "size"; "spacer"; "ctime"; "mtime"; "atime"; "spacer"; "git";
     "spacer"; "icon"; "name"].
Proof. vm_compute. reflexivity. Qed.

(** X13: the registry and the selector cover each other: a key has an
    entry in [column_spec_map] exactly when some configuration makes the
    selector return it, so no entry is dead and no selected key lacks
    one. *)
Theorem registry_keys_are_the_selectable_keys (align : bool) (key : string) :
  is_Some (column_spec_map align !! key) ↔ ∃ cfg, key ∈ get_columns cfg.
Proof.
  split.
  - intros [col Hcol]. exists full_config. rewrite get_columns_full_config.
    apply elem_of_list_to_map_2 in Hcol. unfold column_spec_items in Hcol.
    repeat (apply elem_of_cons in Hcol as [Hcol|Hcol];
            [injection Hcol as -> _; solve [has_elem]|]).
    by apply elem_of_nil in Hcol.
  - intros (cfg & Hkey). by apply column_spec_map_known, get_columns_known with cfg.
Qed.
